(** * simple-audio-worklet: the frame adapter of [src/index.ts]

    A shallow embedding of [simpleAudioWorklet]: the class [Subclass] with its
    constructor, [process], [first] and [stop], and the message listener the
    constructor installs.  JavaScript objects that are mutated in place
    ([this], [this.args], the output buffers, the iterator or instance behind
    the bound [next]) are threaded explicitly; exceptions are completions. *)

From Stdlib Require Import PrimFloat SpecFloat FloatOps ZArith Ascii String.
From stdpp Require Import gmap strings list fin_maps.

(** ** Numbers and buffers *)

(** A JavaScript [number] is a binary64 float; [None] stands for [undefined],
    which is what reading an array or a typed array out of range gives. *)

(** [Math.fround]: the narrowing a [Float32Array] applies to what is stored. *)
Definition fround (x : float) : float :=
  match Prim2SF x with
  | S754_finite s m e =>
      SF2Prim (binary_normalize 24 128 (cond_Zopp s (Zpos m)) e s)
  | _ => x
  end.

(** [a[i] = v] for a [Float32Array]: [undefined] converts to NaN, a number is
    narrowed; the index is handled by the list update. *)
Definition store_f32 (v : option float) : float :=
  match v with
  | Some x => fround x
  | None => nan
  end.

(** [xs[i]] for a JavaScript array: [undefined] out of range. *)
Definition js_index (xs : list (option float)) (i : nat) : option float :=
  default None (xs !! i).

(** [String.prototype.toLowerCase], on the ASCII letters. *)
Definition lower_ascii (c : ascii) : ascii :=
  let n := nat_of_ascii c in
  if Nat.leb 65 n && Nat.leb n 90 then ascii_of_nat (n + 32) else c.

Fixpoint toLowerCase (s : string) : string :=
  match s with
  | EmptyString => EmptyString
  | String c s' => String (lower_ascii c) (toLowerCase s')
  end.

Definition upper_ascii (c : ascii) : ascii :=
  let n := nat_of_ascii c in
  if Nat.leb 97 n && Nat.leb n 122 then ascii_of_nat (n - 32) else c.

(** Every way of writing a word with each letter in either case. *)
Fixpoint casings (w : string) : list string :=
  match w with
  | EmptyString => [EmptyString]
  | String c w' =>
      flat_map (fun t => [String c t; String (upper_ascii c) t]) (casings w')
  end.

(** ** The interfaces of [index.ts] *)

Record Env := {
  outputChannelCount : option nat;
  sampleRate : float
}.

(** [FrameArgs].  The [port] handle is left out: what the adapter itself posts
    on it is recorded in the processor's trace. *)
Record FrameArgs := {
  input : list (option float);
  parameters : gmap string (option float);
  env : Env
}.

(** [Output = number | number[]]. *)
Inductive Output :=
| Num (x : float)
| Arr (xs : list (option float)).

(** [FrameOutput = Output | YieldOutput].  The [value] of a [YieldOutput] is
    [None] when it is [undefined], as in the result of a finished generator. *)
Inductive FrameOutput :=
| Plain (o : Output)
| Yield (value : option Output) (done : bool).

Definition isYieldOutput (value : FrameOutput) : bool :=
  match value with
  | Plain _ => false
  | Yield _ _ => true
  end.

Inductive exn :=
| RangeError (msg : string)
| Error (msg : string)
| TypeError.

Inductive completion (A : Type) :=
| Return (a : A)
| Throw (e : exn).
Arguments Return {A} a.
Arguments Throw {A} e.

(** What can be seen of a run from outside the processor. *)
Inductive Event :=
| EvCreate (a : FrameArgs)          (* implementation.impl(args), type 'g' *)
| EvNew (a : option FrameArgs)      (* new implementation.impl(...) and its argument *)
| EvCall (a : FrameArgs)            (* the frame function or a bound next runs *)
| EvFrame (frame : nat) (a : FrameArgs) (r : FrameOutput)
                                    (* this.next(this.args) returned r at frame *)
| EvPost (msg : string)             (* this.port.postMessage(msg) *)
| EvCleanup.                        (* this.cleanup() *)

Module Worklet.

Section Adapter.

(** The private state of a generator object or of a class instance. *)
Context {Obj : Type}.

(** A call hands the shared [args] to the implementation, which answers with
    a [FrameOutput] and leaves [args.input] as it wrote it ([parameters],
    [port] and [env] are declared readonly in [FrameArgs]). *)
Definition Answer : Type := FrameOutput * list (option float).
Definition Method : Type := Obj -> FrameArgs -> Obj * Answer.

Record Iterator := {
  it_state : Obj;
  it_next : Method;
  it_return : option (Obj -> Obj)
}.

Record Instance := {
  inst_state : Obj;
  inst_next : option Method
}.

(** [Implementation = ClassImpl | GeneratorImpl | PureImpl]. *)
Inductive Implementation :=
| TypeG (impl : FrameArgs -> Iterator)
| TypeP (impl : FrameArgs -> Answer)
| TypeC (impl : option FrameArgs -> Instance).

(** The value of [this.next]. *)
Inductive NextFn :=
| First                                  (* this.first *)
| PureFn (f : FrameArgs -> Answer)       (* implementation.impl *)
| Bound (m : Method).                    (* iterator.next.bind(iterator), instance.next.bind(instance) *)

Record Processor := {
  next : NextFn;
  isDone : bool;
  cleanup : option (Obj -> Obj);
  args : FrameArgs;
  (* the iterator or instance that next and cleanup are bound to *)
  target : option Obj;
  trace : list Event
}.

Definition set_next (v : NextFn) (p : Processor) : Processor :=
  {| next := v; isDone := isDone p; cleanup := cleanup p; args := args p;
     target := target p; trace := trace p |}.
Definition set_isDone (v : bool) (p : Processor) : Processor :=
  {| next := next p; isDone := v; cleanup := cleanup p; args := args p;
     target := target p; trace := trace p |}.
Definition set_cleanup (v : option (Obj -> Obj)) (p : Processor) : Processor :=
  {| next := next p; isDone := isDone p; cleanup := v; args := args p;
     target := target p; trace := trace p |}.
Definition set_args (v : FrameArgs) (p : Processor) : Processor :=
  {| next := next p; isDone := isDone p; cleanup := cleanup p; args := v;
     target := target p; trace := trace p |}.
Definition set_target (v : option Obj) (p : Processor) : Processor :=
  {| next := next p; isDone := isDone p; cleanup := cleanup p; args := args p;
     target := v; trace := trace p |}.
Definition emit (e : Event) (p : Processor) : Processor :=
  {| next := next p; isDone := isDone p; cleanup := cleanup p; args := args p;
     target := target p; trace := trace p ++ [e] |}.

Definition set_input (v : list (option float)) (a : FrameArgs) : FrameArgs :=
  {| input := v; parameters := parameters a; env := env a |}.
Definition set_parameters (v : gmap string (option float)) (a : FrameArgs) : FrameArgs :=
  {| input := input a; parameters := v; env := env a |}.
Definition set_env (v : Env) (a : FrameArgs) : FrameArgs :=
  {| input := input a; parameters := parameters a; env := v |}.

(** The options of [simpleAudioWorklet] that the class closes over. *)
Variable implementation : Implementation.
Variable processOnly : bool.

(** ** [Subclass.constructor] *)

Definition construct (options_outputChannelCount : option (list nat))
    (sampleRate : float) : Processor :=
  let outputChannelCount :=
    match options_outputChannelCount with
    | Some counts => counts !! 0
    | None => Some 2
    end in
  {| next := First;
     isDone := false;
     cleanup := None;
     args := {| input := []; parameters := ∅;
                env := {| outputChannelCount := outputChannelCount;
                          sampleRate := sampleRate |} |};
     target := None;
     trace := [] |}.

(** ** [stop] and the message listener *)

Definition stop (p : Processor) : Processor :=
  let p := set_isDone true p in
  match cleanup p with
  | Some c => emit EvCleanup (set_target (c <$> target p) p)
  | None => p
  end.

(** [e => if (e.data.toString().toLowerCase() === 'stop') this.stop()] *)
Definition onmessage (data : string) (p : Processor) : Processor :=
  if String.eqb (toLowerCase data) "stop"%string then stop p else p.

(** ** [this.next(args)] once it is resolved, and [first] *)

(** A bound method runs on the object it was bound to and leaves it as the
    call changed it.  The two [TypeError] cases are not reached: [first]
    stores the object together with the bound method, and calls [this.next]
    only after it has replaced it. *)
Definition invoke (p : Processor) (a : FrameArgs)
    : completion FrameOutput * Processor :=
  match next p with
  | PureFn f =>
      let '(r, inp) := f a in
      (Return r, set_args (set_input inp (args p)) (emit (EvCall a) p))
  | Bound m =>
      match target p with
      | Some o =>
          let '(o', (r, inp)) := m o a in
          (Return r,
           set_args (set_input inp (args p))
             (set_target (Some o') (emit (EvCall a) p)))
      | None => (Throw TypeError, p)
      end
  | First => (Throw TypeError, p)
  end.

Definition first (p : Processor) (a : FrameArgs)
    : completion FrameOutput * Processor :=
  match implementation with
  | TypeG impl =>
      let iterator := impl a in
      let p := emit (EvCreate a) p in
      let p := set_target (Some (it_state iterator))
                 (set_next (Bound (it_next iterator)) p) in
      let p := set_cleanup (it_return iterator) p in
      (Return (Plain (Num 0%float)), p)
  | TypeP impl =>
      let p := set_next (PureFn impl) p in
      invoke p a
  | TypeC impl =>
      let instance := impl None in
      let p := emit (EvNew None) p in
      match inst_next instance with
      | Some m =>
          let p := set_target (Some (inst_state instance))
                     (set_next (Bound m) p) in
          invoke p a
      | None =>
          (Throw (Error "Argument must be a pure function, a generator function, or a class that defines next()."%string), p)
      end
  end.

Definition call_next (p : Processor) : completion FrameOutput * Processor :=
  match next p with
  | First => first p (args p)
  | _ => invoke p (args p)
  end.

(** ** [process] *)

(** [this.args.parameters[key] = v].  [args.parameters] is the plain object
    of the constructor's literal and the map holds its own properties.  The
    key "__proto__" is never stored: the assignment reaches the setter that
    [Object.prototype] has for it, which ignores a value that is neither an
    object nor [null]. *)
Definition assign (key : string) (v : option float)
    (ps : gmap string (option float)) : gmap string (option float) :=
  if decide (key = "__proto__"%string) then ps else <[key := v]> ps.

(** [parameters.hasOwnProperty(key)] of line 59.  The method is looked up on
    the mapping itself: when the mapping has an own key "hasOwnProperty" the
    callee is the automation array of that key, and the call throws a
    [TypeError]. *)
Definition hasOwnProperty (params : gmap string (list float)) (key : string)
    : completion bool :=
  match params !! "hasOwnProperty"%string with
  | Some _ => Throw TypeError
  | None => Return (bool_decide (is_Some (params !! key)))
  end.

(** Lines 56-65, one turn for each own key of the mapping: the first value of
    the automation array is stored, and the key is listed in [changed] when
    the array is not of length 1.  Once a turn has thrown no further turn
    runs. *)
Definition init_step (params : gmap string (list float))
    (acc : completion unit * (gmap string (option float) * list string))
    (entry : string * list float)
    : completion unit * (gmap string (option float) * list string) :=
  let '(c, (ps, changed)) := acc in
  let '(key, arr) := entry in
  match c with
  | Throw _ => acc
  | Return _ =>
      match hasOwnProperty params key with
      | Throw e => (Throw e, (ps, changed))
      | Return false => acc
      | Return true =>
          (Return tt,
           (assign key (arr !! 0) ps,
            if decide (length arr = 1) then changed else changed ++ [key]))
      end
  end.

Definition init_parameters (params : gmap string (list float))
    (ps : gmap string (option float))
    : completion unit * (gmap string (option float) * list string) :=
  foldl (init_step params) (Return tt, (ps, [])) (map_to_list params).

(** The same loop when every call of [hasOwnProperty] returns [true], as it
    does for the own keys of a mapping without the key "hasOwnProperty". *)
Definition init_turn (acc : gmap string (option float) * list string)
    (entry : string * list float) : gmap string (option float) * list string :=
  let '(ps, changed) := acc in
  let '(key, arr) := entry in
  (assign key (arr !! 0) ps,
   if decide (length arr = 1) then changed else changed ++ [key]).

Definition init_loop (params : gmap string (list float))
    (ps : gmap string (option float))
    : gmap string (option float) * list string :=
  foldl init_turn (ps, []) (map_to_list params).

(** Lines 75-77. *)
Definition update_changed (params : gmap string (list float))
    (changed : list string) (frame : nat)
    (ps : gmap string (option float)) : gmap string (option float) :=
  foldl (fun ps key => assign key (params !! key ≫= (fun arr => arr !! frame)) ps)
        ps changed.

(** Lines 79-82; [resize] is the assignment to [length]. *)
Definition update_input (inbus : list (list float)) (frame : nat)
    (inp : list (option float)) : list (option float) :=
  foldl (fun inp channel =>
           <[channel := inbus !! channel ≫= (fun ch => ch !! frame)]>
             (resize (length inbus) None inp))
        inp (seq 0 (length inbus)).

(** What [this.args] holds when [this.next] is called at [frame]. *)
Definition refresh (params : gmap string (list float)) (changed : list string)
    (inbus : list (list float)) (frame : nat) (a : FrameArgs) : FrameArgs :=
  set_input (update_input inbus frame (input a))
    (set_parameters (update_changed params changed frame (parameters a)) a).

(** [for (channel < output.length) output[channel][frame] = v(channel)]:
    a store outside a typed array's range is ignored. *)
Definition write_frame (frame : nat) (v : nat -> option float)
    (output : list (list float)) : list (list float) :=
  foldl (fun output channel =>
           alter (fun ch => <[frame := store_f32 (v channel)]> ch) channel output)
        output (seq 0 (length output)).

(** Lines 97-113. *)
Definition shape (value : option Output) (frame : nat)
    (output : list (list float)) : list (list float) :=
  match value with
  | Some (Arr xs) =>
      if decide (length output <= length xs)
      then write_frame frame (fun channel => js_index xs channel) output
      else write_frame frame (fun _ => js_index xs 0) output
  | Some (Num x) => write_frame frame (fun _ => Some x) output
  | None => write_frame frame (fun _ => None) output
  end.

(** One turn of the main loop (lines 74-114).  [None]: go on with the next
    frame; [Some c]: the block call completes with [c]. *)
Definition frame_body (params : gmap string (list float))
    (changed : list string) (inbus : list (list float)) (frame : nat)
    (p : Processor) (output : list (list float))
    : option (completion bool) * Processor * list (list float) :=
  let p := set_args (refresh params changed inbus frame (args p)) p in
  let a := args p in
  match call_next p with
  | (Throw e, p) => (Some (Throw e), p, output)
  | (Return r, p) =>
      let p := emit (EvFrame frame a r) p in
      let '(value, p) :=
        match r with
        | Yield value done => (value, set_isDone done p)
        | Plain value => (Some value, p)
        end in
      if isDone p
      then (Some (Return false), emit (EvPost "done") p, output)
      else (None, p, shape value frame output)
  end.

(** The main loop, with [n] frames left from [frame] on. *)
Fixpoint frame_loop (params : gmap string (list float))
    (changed : list string) (inbus : list (list float)) (n frame : nat)
    (p : Processor) (output : list (list float))
    : completion bool * Processor * list (list float) :=
  match n with
  | 0 => (Return (negb processOnly), p, output)
  | S n' =>
      match frame_body params changed inbus frame p output with
      | (Some c, p, output) => (c, p, output)
      | (None, p, output) =>
          frame_loop params changed inbus n' (S frame) p output
      end
  end.

Definition process (p : Processor) (sampleRate : float)
    (inputs outputs : list (list (list float)))
    (params : gmap string (list float))
    : completion bool * Processor * list (list (list float)) :=
  if isDone p
  then (Throw (RangeError "Attempted to process after iterator has finished."),
        p, outputs)
  else
    let inbus := default [] (inputs !! 0) in
    let '(c, (ps, changed)) :=
      init_parameters params (parameters (args p)) in
    let p := set_args (set_parameters ps (args p)) p in
    match c with
    | Throw e => (Throw e, p, outputs)
    | Return _ =>
        match outputs !! 0 with
        | None => (Throw TypeError, p, outputs)
        | Some output =>
            let p := set_args
                       (set_env {| outputChannelCount := Some (length output);
                                   sampleRate := sampleRate |} (args p)) p in
            match output !! 0 with
            | None => (Throw TypeError, p, outputs)
            | Some channel0 =>
                let '(c, p, output) :=
                  frame_loop params changed inbus (length channel0) 0 p output in
                (c, p, <[0 := output]> outputs)
            end
        end
    end.

(** ** Lifetimes *)

(** What the host does to a processor: a block call, or a control message.
    [process] runs to completion without yielding to the event loop, and the
    listener of the constructor runs as a task of its own, so a message is
    always delivered between two block calls. *)
Inductive Action :=
| Block (sampleRate : float) (inputs outputs : list (list (list float)))
        (params : gmap string (list float))
| Message (data : string).

Definition act (p : Processor) (a : Action) : Processor :=
  match a with
  | Block sampleRate inputs outputs params =>
      (process p sampleRate inputs outputs params).1.2
  | Message data => onmessage data p
  end.

Definition run (acts : list Action) (p : Processor) : Processor :=
  foldl act p acts.

(** ** Reading a trace *)

Definition is_call (e : Event) : bool :=
  match e with EvCall _ => true | _ => false end.
Definition is_frame (e : Event) : bool :=
  match e with EvFrame _ _ _ => true | _ => false end.
Definition is_cleanup (e : Event) : bool :=
  match e with EvCleanup => true | _ => false end.
Definition is_post (msg : string) (e : Event) : bool :=
  match e with EvPost m => String.eqb m msg | _ => false end.
Definition is_done_frame (e : Event) : bool :=
  match e with EvFrame _ _ (Yield _ true) => true | _ => false end.
Definition is_stop (a : Action) : bool :=
  match a with
  | Message data => String.eqb (toLowerCase data) "stop"
  | Block _ _ _ _ => false
  end.

Definition count {A : Type} (f : A -> bool) (l : list A) : nat :=
  length (List.filter f l).

(** The sample of [output] at [channel], [frame]. *)
Definition sample (output : list (list float)) (channel frame : nat)
    : option float :=
  output !! channel ≫= (fun ch => ch !! frame).

(** The value [shape] stores for [channel], as lines 97-113 pick it. *)
Definition picked (value : option Output) (channels channel : nat)
    : option float :=
  match value with
  | Some (Arr xs) =>
      if decide (channels <= length xs) then js_index xs channel
      else js_index xs 0
  | Some (Num x) => Some x
  | None => None
  end.

(** The events a call of [this.next] leaves: everything but the loop's own. *)
Definition quiet (e : Event) : Prop :=
  match e with
  | EvCreate _ | EvNew _ | EvCall _ => True
  | _ => False
  end.

Definition value_of (r : FrameOutput) : option Output :=
  match r with
  | Plain value => Some value
  | Yield value _ => value
  end.

(** [this.isDone] after line 86-89, from what it was before. *)
Definition done_after (was : bool) (r : FrameOutput) : bool :=
  match r with
  | Plain _ => was
  | Yield _ done => done
  end.

(** The three ways one turn of the main loop ends, with [a] the arguments
    [this.next] was called with. *)
Inductive frame_result (frame : nat) (a : FrameArgs) (p : Processor)
    (output : list (list float))
    : option (completion bool) -> Processor -> list (list float) -> Prop :=
| frame_throws e p' evs inp :
    trace p' = trace p ++ evs -> Forall quiet evs ->
    isDone p' = isDone p -> args p' = set_input inp a ->
    frame_result frame a p output (Some (Throw e)) p' output
| frame_done r p' evs inp :
    trace p' = trace p ++ evs ++ [EvFrame frame a r; EvPost "done"] ->
    Forall quiet evs ->
    done_after (isDone p) r = true -> isDone p' = true ->
    args p' = set_input inp a ->
    frame_result frame a p output (Some (Return false)) p' output
| frame_continues r p' evs inp :
    trace p' = trace p ++ evs ++ [EvFrame frame a r] ->
    Forall quiet evs ->
    done_after (isDone p) r = false -> isDone p' = false ->
    args p' = set_input inp a ->
    frame_result frame a p output None p' (shape (value_of r) frame output).

(** A run of the main loop as a chain of turns. *)
Inductive loop_run (params : gmap string (list float)) (changed : list string)
    (inbus : list (list float))
    : nat -> nat -> Processor -> list (list float) ->
      completion bool * Processor * list (list float) -> Prop :=
| loop_end frame p output :
    loop_run params changed inbus 0 frame p output
      (Return (negb processOnly), p, output)
| loop_exit n frame p output c p' output' :
    frame_result frame (refresh params changed inbus frame (args p)) p output
      (Some c) p' output' ->
    loop_run params changed inbus (S n) frame p output (c, p', output')
| loop_step n frame p output p' output' res :
    frame_result frame (refresh params changed inbus frame (args p)) p output
      None p' output' ->
    loop_run params changed inbus n (S frame) p' output' res ->
    loop_run params changed inbus (S n) frame p output res.

(** The events a block call adds to the trace. *)
Definition block_events (p : Processor) (sampleRate : float)
    (inputs outputs : list (list (list float)))
    (params : gmap string (list float)) : list Event :=
  drop (length (trace p))
       (trace (process p sampleRate inputs outputs params).1.2).

(** The two ways [this.isDone] comes to be set: a frame result that carries
    [done = true], and a "stop" message in some letter casing. *)
Inductive flag_set : Processor -> Prop :=
| flag_by_completion p sampleRate inputs outputs params k a v :
    EvFrame k a (Yield v true)
      ∈ block_events p sampleRate inputs outputs params ->
    flag_set (process p sampleRate inputs outputs params).1.2
| flag_by_stop p data :
    data ∈ casings "stop" -> flag_set (onmessage data p).

(** [output[0].length], the number of frames of a block. *)
Definition block_size (outputs : list (list (list float))) : nat :=
  length (default [] (outputs !! 0 ≫= (fun output => output !! 0))).

(** The events that make the implementation's object: the generator
    function or the constructor is called. *)
Definition is_create (e : Event) : bool :=
  match e with EvCreate _ | EvNew _ => true | _ => false end.

End Adapter.

(** ** [simpleAudioWorklet] and the three exported functions *)

Section Factory.

(** [Obj] as above; [Desc] stands for [AudioParamDescriptor] and [Handler]
    for the type of the [onmessage] option. *)
Context {Obj Desc Handler : Type}.

(** [Implementation]: the tagged [{type, impl}] together with [SharedImpl]. *)
Record ImplementationObject := {
  tagged : @Implementation Obj;
  impl_parameterDescriptors : option (list Desc)
}.

(** [SimpleAudioWorkletOptions]; [None] is a property left out. *)
Record SimpleAudioWorkletOptions := {
  opt_processOnly : option bool;
  opt_parameterDescriptors : option (list Desc);
  opt_onmessage : option Handler;
  opt_registerAs : option string
}.

(** The class [Subclass] that a call of [simpleAudioWorklet] makes: what its
    methods close over, and the value of its static getter. *)
Record Subclass := {
  sc_implementation : @Implementation Obj;
  sc_processOnly : bool;
  sc_onmessage : option Handler;
  sc_parameterDescriptors : list Desc
}.

(** Lines 4-7 and 36-38, 155-158.  The second component lists the calls of
    [registerProcessor]; an empty string is falsy. *)
Definition simpleAudioWorklet (implementation : ImplementationObject)
    (options : option SimpleAudioWorkletOptions)
    : Subclass * list (string * Subclass) :=
  let options :=
    default {| opt_processOnly := None; opt_parameterDescriptors := None;
               opt_onmessage := None; opt_registerAs := None |} options in
  let processOnly := default false (opt_processOnly options) in
  let parameterDescriptors := default [] (opt_parameterDescriptors options) in
  let subclass :=
    {| sc_implementation := tagged implementation;
       sc_processOnly := processOnly;
       sc_onmessage := opt_onmessage options;
       sc_parameterDescriptors :=
         default parameterDescriptors
                 (impl_parameterDescriptors implementation) |} in
  (subclass,
   match opt_registerAs options with
   | Some registerAs =>
       if String.eqb registerAs "" then [] else [(registerAs, subclass)]
   | None => []
   end).

Definition fromGenerator (generatorWorklet : FrameArgs -> @Iterator Obj)
    (options : option SimpleAudioWorkletOptions) :=
  simpleAudioWorklet
    {| tagged := TypeG generatorWorklet; impl_parameterDescriptors := None |}
    options.

Definition fromClass (classWorklet : option FrameArgs -> @Instance Obj)
    (options : option SimpleAudioWorkletOptions) :=
  simpleAudioWorklet
    {| tagged := TypeC classWorklet; impl_parameterDescriptors := None |}
    options.

Definition fromPure (pureWorklet : FrameArgs -> @Answer)
    (options : option SimpleAudioWorkletOptions) :=
  simpleAudioWorklet
    {| tagged := TypeP pureWorklet; impl_parameterDescriptors := None |}
    options.

(** [new Subclass(options).process(...)]. *)
Definition sc_process (c : Subclass) :=
  process (sc_implementation c) (sc_processOnly c).

End Factory.

End Worklet.

Import Worklet.

(** * Concrete implementations and blocks *)

Module Demo.

(** A pure function that returns its input frame. *)
Definition echo : @Implementation unit :=
  TypeP (fun a => (Plain (Arr (input a)), input a)).

(** A pure function that returns three channels whatever the bus has. *)
Definition three : @Implementation unit :=
  TypeP (fun a => (Plain (Arr [Some 0.5; Some 0.25; Some 0.125]%float), input a)).

(** A generator that yields 1 twice and then finishes; its [return] marks the
    generator object with 100. *)
Definition counter_fn (_ : FrameArgs) : @Iterator nat :=
  {| it_state := 0;
     it_next := fun n a =>
       (S n, (Yield (if Nat.ltb n 2 then Some (Num 1%float) else None)
                    (negb (Nat.ltb n 2)), input a));
     it_return := Some (fun _ => 100) |}.

Definition counter : @Implementation nat := TypeG counter_fn.

(** A class in the shape of the README's: the instance keeps what its
    constructor was given, and [next] returns the input frame. *)
Definition add_noise : @Implementation (option FrameArgs) :=
  TypeC (fun given =>
    {| inst_state := given;
       inst_next := Some (fun o a => (o, (Plain (Arr (input a)), input a))) |}).

Definition rate : float := 44100%float.

(** One input channel, two output channels, two frames. *)
Definition inputs1 : list (list (list float)) := [[[0.5; 0.25]]]%float.
Definition outputs2 : list (list (list float)) := [[[9; 9]; [9; 9]]]%float.
(** The input bus with no channel: nothing is connected. *)
Definition inputs0 : list (list (list float)) := [[]].
(** One output channel of five frames. *)
Definition outputs5 : list (list (list float)) := [[[9; 9; 9; 9; 9]]]%float.

Definition gain : gmap string (list float) :=
  {[ "gain"%string := [1; 2]%float; "k"%string := [7]%float ]}.

(** [this.args] at frame 1 of the block [inputs1], [outputs2], [gain]. *)
Definition args1 : FrameArgs :=
  {| input := [Some 0.25%float];
     parameters := {[ "gain"%string := Some 2%float; "k"%string := Some 7%float ]};
     env := {| outputChannelCount := Some 2; sampleRate := rate |} |}.

(** [this.args] in a block with no input and no parameter, one channel out. *)
Definition args_idle : FrameArgs :=
  {| input := []; parameters := ∅;
     env := {| outputChannelCount := Some 1; sampleRate := rate |} |}.



(** The generator [counter] after a first block of two frames. *)
Definition resumed : @Processor nat :=
  (process counter false (construct None rate) rate [] outputs2 ∅).1.2.

(** The processor [echo] after the block [inputs1], [outputs2], [gain]. *)
Definition gained : @Processor unit :=
  (process echo false (construct None rate) rate inputs1 outputs2 gain).1.2.

(** [this.args] at frame 0 of a further block [inputs1], [outputs2]. *)
Definition args0 : FrameArgs :=
  {| input := [Some 0.5%float];
     parameters := {[ "gain"%string := Some 2%float; "k"%string := Some 7%float ]};
     env := {| outputChannelCount := Some 2; sampleRate := rate |} |}.

(** An automation mapping with an empty array. *)
Definition empty_automation : gmap string (list float) :=
  {[ "z"%string := [] ]}.

(** A mapping with an own key "__proto__" and an array of block size. *)
Definition proto : gmap string (list float) :=
  {[ "__proto__"%string := [3; 4]%float ]}.

(** A mapping with an own key "hasOwnProperty". *)
Definition shadowing : gmap string (list float) :=
  {[ "gain"%string := [1]%float; "hasOwnProperty"%string := [0]%float ]}.

(** A class whose instances have no [next]. *)
Definition nextless : @Implementation unit :=
  TypeC (fun _ => {| inst_state := tt; inst_next := None |}).

End Demo.

(** * Properties *)

Section Properties.

Context {Obj : Type}.
Variable implementation : @Implementation Obj.
Variable processOnly : bool.

Abbreviation process := (process implementation processOnly).
Abbreviation frame_loop := (frame_loop implementation processOnly).
Abbreviation frame_body := (frame_body implementation).
Abbreviation call_next := (call_next implementation).
Abbreviation run := (run implementation processOnly).
Abbreviation act := (act implementation processOnly).
Abbreviation loop_run := (@loop_run Obj processOnly).
Abbreviation Processor := (@Processor Obj).
Abbreviation invoke := (@invoke Obj).
Abbreviation stop := (@stop Obj).
Abbreviation onmessage := (@onmessage Obj).
Abbreviation construct := (@construct Obj).
Abbreviation flag_set := (flag_set implementation processOnly).
Abbreviation block_events := (block_events implementation processOnly).

(** ** The store into a [Float32Array] *)

Example fround_half : fround 0.5%float = 0.5%float.
Proof. reflexivity. Qed.

(** [Math.fround(0.1)] *)
Example fround_tenth : fround 0x1.999999999999ap-4%float = 0x1.99999ap-4%float.
Proof. reflexivity. Qed.

Example fround_overflow : fround 0x1p+200%float = infinity.
Proof. reflexivity. Qed.

Example store_undefined : PrimFloat.is_nan (store_f32 None) = true.
Proof. reflexivity. Qed.

(** ** The parameter snapshot *)

Lemma assign_lookup_ne (key k : string) (v : option float)
    (ps : gmap string (option float)) :
  k <> key -> assign key v ps !! k = ps !! k.
Proof.
  intros Hne. unfold assign.
  destruct (decide (key = "__proto__"%string)); [done|].
  by rewrite lookup_insert_ne.
Qed.

Lemma assign_lookup_eq (key : string) (v : option float)
    (ps : gmap string (option float)) :
  key <> "__proto__"%string -> assign key v ps !! key = Some v.
Proof.
  intros Hne. unfold assign.
  destruct (decide (key = "__proto__"%string)); [done|].
  by rewrite lookup_insert_eq.
Qed.

Lemma assign_proto (key : string) (v : option float)
    (ps : gmap string (option float)) :
  assign key v ps !! "__proto__"%string = ps !! "__proto__"%string.
Proof.
  unfold assign.
  destruct (decide (key = "__proto__"%string)) as [|Hne]; [done|].
  by rewrite lookup_insert_ne.
Qed.

Lemma init_step_keeps (l : list (string * list float)) (k : string)
    (q q' : gmap string (option float)) (c c' : list string) :
  k ∉ l.*1 -> foldl init_turn (q, c) l = (q', c') -> q' !! k = q !! k.
Proof.
  revert q c. induction l as [|[k2 a2] l IH]; intros q c Hni Hf.
  - simpl in Hf. by inversion Hf.
  - simpl in Hf, Hni. apply not_elem_of_cons in Hni as [Hne Hni].
    rewrite (IH _ _ Hni Hf). by rewrite assign_lookup_ne.
Qed.

Lemma init_loop_proto (l : list (string * list float))
    (q q' : gmap string (option float)) (c c' : list string) :
  foldl init_turn (q, c) l = (q', c') ->
  q' !! "__proto__"%string = q !! "__proto__"%string.
Proof.
  revert q c. induction l as [|[k2 a2] l IH]; intros q c Hf.
  - simpl in Hf. by inversion Hf.
  - simpl in Hf. rewrite (IH _ _ Hf). by rewrite assign_proto.
Qed.

Lemma init_parameters_fold (l : list (string * list float))
    (ps0 : gmap string (option float)) (ch0 : list string) :
  NoDup l.*1 ->
  forall ps changed,
    foldl init_turn (ps0, ch0) l = (ps, changed) ->
    (forall k arr, (k, arr) ∈ l -> k <> "__proto__"%string ->
                   ps !! k = Some (arr !! 0)) /\
    (forall k, k ∈ changed <->
               k ∈ ch0 \/ exists arr, (k, arr) ∈ l /\ length arr <> 1).
Proof.
  revert ps0 ch0.
  induction l as [|[k1 a1] l IH]; intros ps0 ch0 Hnd ps changed Hf; simpl in Hf.
  - inversion Hf; subst. split.
    + intros k arr Hin. inversion Hin.
    + intros k. split; [auto|]. intros [H|(arr & Hin & _)]; [done|inversion Hin].
  - apply NoDup_cons in Hnd as [Hk1 Hnd].
    destruct (IH _ _ Hnd _ _ Hf) as [Hps Hch]. split.
    + intros k arr Hin Hproto. apply elem_of_cons in Hin as [Heq|Hin].
      * inversion Heq; subst.
        rewrite (init_step_keeps l k1 _ _ _ _ Hk1 Hf).
        by rewrite assign_lookup_eq.
      * by apply Hps.
    + intros k. rewrite Hch. split.
      * intros [Hin|(arr & Hin & Hlen)].
        -- destruct (decide (length a1 = 1)) as [Hl|Hl].
           ++ by left.
           ++ apply elem_of_app in Hin as [Hin|Hin]; [by left|].
              apply list_elem_of_singleton in Hin; subst.
              right. exists a1. split; [left|done].
        -- right. exists arr. split; [by right|done].
      * intros [Hin|(arr & Hin & Hlen)].
        -- left. destruct (decide (length a1 = 1)); [done|].
           apply elem_of_app. by left.
        -- apply elem_of_cons in Hin as [Heq|Hin].
           ++ inversion Heq; subst. left.
              destruct (decide (length a1 = 1)); [done|].
              apply elem_of_app. right. by apply list_elem_of_singleton.
           ++ right. by exists arr.
Qed.

Lemma init_parameters_spec (params : gmap string (list float))
    (ps0 ps : gmap string (option float)) (changed : list string) :
  init_loop params ps0 = (ps, changed) ->
  (forall k arr, params !! k = Some arr -> k <> "__proto__"%string ->
                 ps !! k = Some (arr !! 0)) /\
  (forall k, k ∈ changed <-> exists arr, params !! k = Some arr /\ length arr <> 1).
Proof.
  intros Hi.
  destruct (init_parameters_fold _ _ _ (NoDup_fst_map_to_list params) _ _ Hi)
    as [Hps Hch].
  split.
  - intros k arr Hk. apply Hps. by apply elem_of_map_to_list.
  - intros k. rewrite Hch. split.
    + intros [Hin|(arr & Hin & Hl)]; [inversion Hin|].
      exists arr. split; [by apply elem_of_map_to_list|done].
    + intros (arr & Hk & Hl). right. exists arr.
      split; [by apply elem_of_map_to_list|done].
Qed.

(** With no own key "hasOwnProperty" in the mapping, the loop of lines 58-65
    returns, and is [init_loop]. *)
Lemma init_parameters_returns (params : gmap string (list float))
    (ps : gmap string (option float)) :
  params !! "hasOwnProperty"%string = None ->
  init_parameters params ps = (Return tt, init_loop params ps).
Proof.
  intros Hown. unfold init_parameters, init_loop.
  assert (Hall : Forall (fun e => params !! e.1 = Some e.2) (map_to_list params)).
  { apply Forall_forall. intros [k arr] Hin. by apply elem_of_map_to_list. }
  generalize (@nil string). revert ps Hall.
  induction (map_to_list params) as [|[k arr] l IH]; intros ps Hall ch; [done|].
  apply Forall_cons in Hall as [Hk Hall]. simpl in Hk. simpl.
  unfold hasOwnProperty. rewrite Hown, Hk. simpl. by apply IH.
Qed.

(** With an own key "hasOwnProperty" the first turn throws, before anything
    is stored. *)
Lemma init_parameters_throws (params : gmap string (list float))
    (ps : gmap string (option float)) (own : list float) :
  params !! "hasOwnProperty"%string = Some own ->
  init_parameters params ps = (Throw TypeError, (ps, [])).
Proof.
  intros Hown. unfold init_parameters.
  assert (Hstay : forall l e st,
             foldl (init_step params) (Throw e, st) l = (Throw e, st)).
  { induction l as [|[k arr] l IH]; intros e [q ch]; [done|]. simpl. apply IH. }
  destruct (map_to_list params) as [|[k arr] l] eqn:Hl.
  - apply map_to_list_empty_iff in Hl. subst params.
    by rewrite lookup_empty in Hown.
  - simpl. unfold hasOwnProperty. rewrite Hown. apply Hstay.
Qed.

Lemma update_changed_keeps (params : gmap string (list float))
    (changed : list string) (frame : nat) (ps : gmap string (option float))
    (k : string) :
  k ∉ changed -> update_changed params changed frame ps !! k = ps !! k.
Proof.
  unfold update_changed. revert ps.
  induction changed as [|key changed IH]; intros ps Hni; [done|].
  apply not_elem_of_cons in Hni as [Hne Hni]. simpl.
  rewrite IH by done. by rewrite assign_lookup_ne.
Qed.

Lemma update_changed_proto (params : gmap string (list float))
    (changed : list string) (frame : nat) (ps : gmap string (option float)) :
  update_changed params changed frame ps !! "__proto__"%string
  = ps !! "__proto__"%string.
Proof.
  unfold update_changed. revert ps.
  induction changed as [|key changed IH]; intros ps; [done|]. simpl.
  rewrite IH. by rewrite assign_proto.
Qed.

Lemma update_changed_lookup (params : gmap string (list float))
    (changed : list string) (frame : nat) (ps : gmap string (option float))
    (k : string) :
  k <> "__proto__"%string ->
  update_changed params changed frame ps !! k =
    if decide (k ∈ changed)
    then Some (params !! k ≫= (fun arr => arr !! frame))
    else ps !! k.
Proof.
  intros Hproto. unfold update_changed. revert ps.
  induction changed as [|key changed IH] using rev_ind; intros ps.
  - simpl. destruct (decide (k ∈ [])) as [H|H]; [inversion H|done].
  - rewrite foldl_app. simpl.
    destruct (decide (k = key)) as [->|Hne].
    + rewrite assign_lookup_eq by done.
      destruct (decide (key ∈ changed ++ [key])) as [H|H]; [done|].
      exfalso. apply H. apply elem_of_app. right. by apply list_elem_of_singleton.
    + rewrite assign_lookup_ne by done. rewrite IH.
      destruct (decide (k ∈ changed)) as [H|H];
        destruct (decide (k ∈ changed ++ [key])) as [H'|H']; try done.
      * exfalso. apply H'. apply elem_of_app. by left.
      * exfalso. apply elem_of_app in H' as [H'|H']; [done|].
        by apply list_elem_of_singleton in H'.
Qed.

(** ** Writing a frame into the output bus *)

Lemma alter_each_lookup (f : nat -> list float -> list float)
    (cs : list nat) (output : list (list float)) (c : nat) :
  NoDup cs ->
  foldl (fun output channel => alter (f channel) channel output) output cs !! c
  = if decide (c ∈ cs) then f c <$> output !! c else output !! c.
Proof.
  revert output. induction cs as [|c1 cs IH]; intros output Hnd; simpl.
  - destruct (decide (c ∈ [])) as [H|H]; [inversion H|done].
  - apply NoDup_cons in Hnd as [Hc1 Hnd]. rewrite IH by done.
    destruct (decide (c = c1)) as [->|Hne].
    + destruct (decide (c1 ∈ cs)); [done|].
      rewrite list_lookup_alter_eq.
      destruct (decide (c1 ∈ c1 :: cs)) as [H|H]; [done|].
      exfalso. apply H. left.
    + rewrite list_lookup_alter_ne by done.
      destruct (decide (c ∈ cs)) as [H|H];
        destruct (decide (c ∈ c1 :: cs)) as [H'|H']; try done.
      * exfalso. apply H'. by right.
      * exfalso. apply elem_of_cons in H' as [H'|H']; done.
Qed.

Lemma write_frame_lookup (frame : nat) (v : nat -> option float)
    (output : list (list float)) (c : nat) :
  write_frame frame v output !! c
  = (fun ch => <[frame := store_f32 (v c)]> ch) <$> output !! c.
Proof.
  unfold write_frame.
  rewrite (alter_each_lookup
             (fun channel ch => <[frame := store_f32 (v channel)]> ch))
    by apply NoDup_seq.
  destruct (decide (c ∈ seq 0 (length output))) as [H|H]; [done|].
  rewrite elem_of_seq in H.
  rewrite (lookup_ge_None_2 output c) by lia. done.
Qed.

Lemma shape_lookup (value : option Output) (frame : nat)
    (output : list (list float)) (c : nat) :
  shape value frame output !! c
  = (fun ch => <[frame := store_f32 (picked value (length output) c)]> ch)
      <$> output !! c.
Proof.
  unfold shape, picked. destruct value as [[x|xs]|].
  - by rewrite write_frame_lookup.
  - destruct (decide (length output <= length xs)); by rewrite write_frame_lookup.
  - by rewrite write_frame_lookup.
Qed.

Lemma shape_length (value : option Output) (frame : nat)
    (output : list (list float)) :
  length (shape value frame output) = length output.
Proof.
  apply Nat.le_antisymm.
  - apply Nat.nlt_ge. intros Hlt.
    destruct (lookup_lt_is_Some_2 _ _ Hlt) as [ch Hch].
    rewrite shape_lookup in Hch.
    rewrite (lookup_ge_None_2 output (length output)) in Hch by lia. done.
  - apply Nat.nlt_ge. intros Hlt.
    destruct (lookup_lt_is_Some_2 _ _ Hlt) as [ch Hch].
    assert (Hn : shape value frame output !! length (shape value frame output) = None)
      by (apply lookup_ge_None_2; lia).
    rewrite shape_lookup, Hch in Hn. done.
Qed.

Lemma shape_sample_other (value : option Output) (frame : nat)
    (output : list (list float)) (c f : nat) :
  f <> frame -> sample (shape value frame output) c f = sample output c f.
Proof.
  intros Hne. unfold sample. rewrite shape_lookup.
  destruct (output !! c) as [ch|]; simpl; [|done].
  by rewrite list_lookup_insert_ne.
Qed.

Lemma shape_sample_frame (value : option Output) (frame : nat)
    (output : list (list float)) (c : nat) (x : float) :
  sample output c frame = Some x ->
  sample (shape value frame output) c frame
  = Some (store_f32 (picked value (length output) c)).
Proof.
  unfold sample. rewrite shape_lookup.
  destruct (output !! c) as [ch|]; simpl; [|done].
  intros Hx. apply list_lookup_insert_eq. by eapply lookup_lt_Some.
Qed.

(** ** One turn of the main loop *)

Lemma set_input_same (a : FrameArgs) : set_input (input a) a = a.
Proof. by destruct a. Qed.

Lemma invoke_spec (p : Processor) (a : FrameArgs) c p1 :
  invoke p a = (c, p1) ->
  exists evs inp,
    trace p1 = trace p ++ evs /\ Forall quiet evs /\
    isDone p1 = isDone p /\ args p1 = set_input inp (args p) /\
    next p1 = next p /\ cleanup p1 = cleanup p.
Proof.
  unfold invoke. intros H.
  destruct (next p) as [|f|m] eqn:Hn.
  - inversion H; subst. exists [], (input (args p1)).
    rewrite app_nil_r, set_input_same. by repeat split.
  - destruct (f a) as [r inp]. inversion H; subst.
    exists [EvCall a], inp. repeat split; try done.
    by repeat constructor.
  - destruct (target p) as [o|].
    + destruct (m o a) as [o' [r inp]]. inversion H; subst.
      exists [EvCall a], inp. repeat split; try done.
      by repeat constructor.
    + inversion H; subst. exists [], (input (args p1)).
      rewrite app_nil_r, set_input_same. by repeat split.
Qed.

Lemma call_next_spec (p : Processor) c p1 :
  call_next p = (c, p1) ->
  exists evs inp,
    trace p1 = trace p ++ evs /\ Forall quiet evs /\
    isDone p1 = isDone p /\ args p1 = set_input inp (args p).
Proof.
  unfold Worklet.call_next. intros H.
  assert (Hinv : forall q, args q = args p -> isDone q = isDone p ->
            forall evs0, trace q = trace p ++ evs0 -> Forall quiet evs0 ->
            invoke q (args p) = (c, p1) ->
            exists evs inp,
              trace p1 = trace p ++ evs /\ Forall quiet evs /\
              isDone p1 = isDone p /\ args p1 = set_input inp (args p)).
  { intros q Ha Hd evs0 Ht Hq Hi.
    destruct (invoke_spec _ _ _ _ Hi) as (evs & inp & Ht' & Hq' & Hd' & Ha' & _).
    exists (evs0 ++ evs), inp. rewrite Ht', Ht, Hd', Hd, Ha', Ha.
    rewrite app_assoc. repeat split; try done. by apply Forall_app. }
  assert (Hq1 : forall e, quiet e -> Forall quiet [e]) by (by repeat constructor).
  destruct (next p) eqn:Hn.
  - unfold Worklet.first in H. destruct implementation as [impl|impl|impl].
    + inversion H; subst. exists [EvCreate (args p)], (input (args p)).
      rewrite set_input_same. repeat split; try done. by apply Hq1.
    + refine (Hinv _ _ _ [] _ _ H); simpl; try done. by rewrite app_nil_r.
    + destruct (inst_next (impl None)) as [m|].
      * refine (Hinv _ _ _ [EvNew None] _ _ H); simpl; try done. by apply Hq1.
      * inversion H; subst. exists [EvNew None], (input (args p)).
        rewrite set_input_same. repeat split; try done. by apply Hq1.
  - refine (Hinv _ _ _ [] _ _ H); simpl; try done. by rewrite app_nil_r.
  - refine (Hinv _ _ _ [] _ _ H); simpl; try done. by rewrite app_nil_r.
Qed.

Lemma frame_body_result (params : gmap string (list float))
    (changed : list string) (inbus : list (list float)) (frame : nat)
    (p : Processor) (output : list (list float)) fl p' output' :
  frame_body params changed inbus frame p output = (fl, p', output') ->
  frame_result frame (refresh params changed inbus frame (args p)) p output
    fl p' output'.
Proof.
  unfold Worklet.frame_body. intros H.
  set (a := refresh params changed inbus frame (args p)) in *.
  destruct (call_next (set_args a p)) as [[r|e] p1] eqn:Hc;
    destruct (call_next_spec _ _ _ Hc) as (evs & inp & Ht & Hq & Hd & Ha);
    simpl in Ht, Hd, Ha.
  - destruct r as [value|value done]; simpl in H.
    + destruct (isDone p1) eqn:Hd1; inversion H; subst.
      * apply (frame_done _ _ _ _ (Plain value) _ evs inp); simpl; try done.
        by rewrite Ht, <- !app_assoc.
      * apply (frame_continues _ _ _ _ (Plain value) _ evs inp); simpl; try done.
        by rewrite Ht, <- app_assoc.
    + destruct done; inversion H; subst.
      * apply (frame_done _ _ _ _ (Yield value true) _ evs inp); simpl; try done.
        by rewrite Ht, <- !app_assoc.
      * apply (frame_continues _ _ _ _ (Yield value false) _ evs inp); simpl;
          try done.
        by rewrite Ht, <- app_assoc.
  - inversion H; subst. by apply (frame_throws _ _ _ _ _ _ evs inp).
Qed.

Lemma frame_loop_run (params : gmap string (list float))
    (changed : list string) (inbus : list (list float)) (n frame : nat)
    (p : Processor) (output : list (list float)) :
  loop_run params changed inbus n frame p output
    (frame_loop params changed inbus n frame p output).
Proof.
  revert frame p output. induction n as [|n IH]; intros frame p output; simpl.
  - constructor.
  - destruct (frame_body params changed inbus frame p output)
      as [[[c|] p'] output'] eqn:Hb; apply frame_body_result in Hb.
    + by apply loop_exit.
    + eapply loop_step; [exact Hb|apply IH].
Qed.

(** ** Runs of the main loop *)

Lemma count_app {A : Type} (f : A -> bool) (l1 l2 : list A) :
  count f (l1 ++ l2) = count f l1 + count f l2.
Proof. unfold count. by rewrite List.filter_app, length_app. Qed.

Lemma count_cons {A : Type} (f : A -> bool) (x : A) (l : list A) :
  count f (x :: l) = (if f x then 1 else 0) + count f l.
Proof. unfold count. simpl. by destruct (f x). Qed.


Lemma quiet_no_frame (evs : list Event) f a r :
  Forall quiet evs -> EvFrame f a r ∈ evs -> False.
Proof. intros Hq Hin. rewrite Forall_forall in Hq. exact (Hq _ Hin). Qed.

Lemma quiet_count_post (evs : list Event) (msg : string) :
  Forall quiet evs -> count (is_post msg) evs = 0.
Proof.
  induction 1 as [|e evs He _ IH]; [done|].
  change (e :: evs) with ([e] ++ evs). rewrite count_app, IH.
  by destruct e.
Qed.

Lemma quiet_count_done_frame (evs : list Event) :
  Forall quiet evs -> count is_done_frame evs = 0.
Proof.
  induction 1 as [|e evs He _ IH]; [done|].
  change (e :: evs) with ([e] ++ evs). rewrite count_app, IH.
  by destruct e.
Qed.

Lemma quiet_count_cleanup (evs : list Event) :
  Forall quiet evs -> count is_cleanup evs = 0.
Proof.
  induction 1 as [|e evs He _ IH]; [done|].
  change (e :: evs) with ([e] ++ evs). rewrite count_app, IH.
  by destruct e.
Qed.

Lemma done_after_false_yield (r : FrameOutput) :
  done_after false r = true -> exists v, r = Yield v true.
Proof. destruct r as [v|v [|]]; simpl; try done. intros _. by exists v. Qed.

Lemma loop_run_inv (params : gmap string (list float)) (changed : list string)
    (inbus : list (list float)) (n frame : nat) (p : Processor)
    (output : list (list float)) res :
  loop_run params changed inbus n frame p output res ->
  isDone p = false ->
  exists evs,
    trace res.1.2 = trace p ++ evs /\
    length res.2 = length output /\
    (forall f a r, EvFrame f a r ∈ evs -> frame <= f < frame + n) /\
    (forall ch f,
        (forall a r, EvFrame f a r ∈ evs -> exists v, r = Yield v true) ->
        sample res.2 ch f = sample output ch f) /\
    (forall f a r ch x,
        EvFrame f a r ∈ evs -> (forall v, r <> Yield v true) ->
        sample output ch f = Some x ->
        sample res.2 ch f
        = Some (store_f32 (picked (value_of r) (length output) ch))) /\
    (forall f a v,
        EvFrame f a (Yield v true) ∈ evs ->
        res.1.1 = Return false /\
        exists evs0,
          evs = evs0 ++ [EvFrame f a (Yield v true); EvPost "done"] /\
          forall f' a' r', EvFrame f' a' r' ∈ evs0 -> f' < f) /\
    count (is_post "done") evs = (if isDone res.1.2 then 1 else 0) /\
    count is_done_frame evs = count (is_post "done") evs /\
    count is_cleanup evs = 0.
Proof.
  induction 1 as [frame p output
                 |n frame p output c p' output' Hfr
                 |n frame p output p1 output1 res Hfr Hrun IH]; intros Hd; simpl.
  - exists []. rewrite app_nil_r, Hd. split_and!; try done.
    + intros f a r Hin. inversion Hin.
    + intros f a r ch x Hin. inversion Hin.
    + intros f a v Hin. inversion Hin.
  - inversion Hfr as [e p2 evs inp Ht Hq Hd' Ha
                     |r p2 evs inp Ht Hq Hda Hd' Ha|]; subst.
    + exists evs.
      rewrite Hd', Hd, (quiet_count_post _ _ Hq), (quiet_count_done_frame _ Hq),
        (quiet_count_cleanup _ Hq).
      split_and!; try done.
      * intros f a r Hin. exfalso. eapply quiet_no_frame; eauto.
      * intros f a r ch x Hin. exfalso. eapply quiet_no_frame; eauto.
      * intros f a v Hin. exfalso. eapply quiet_no_frame; eauto.
    + rewrite Hd in Hda. destruct (done_after_false_yield _ Hda) as [v ->].
      exists (evs ++ [EvFrame frame (refresh params changed inbus frame (args p))
                        (Yield v true); EvPost "done"]).
      rewrite Hd', !count_app, (quiet_count_post _ _ Hq),
        (quiet_count_done_frame _ Hq), (quiet_count_cleanup _ Hq).
      assert (Hone : forall f a r,
                 EvFrame f a r ∈ evs ++
                   [EvFrame frame (refresh params changed inbus frame (args p))
                      (Yield v true); EvPost "done"] ->
                 f = frame /\ r = Yield v true
                 /\ a = refresh params changed inbus frame (args p)).
      { intros f a r Hin. apply elem_of_app in Hin as [Hin|Hin].
        - exfalso. eapply quiet_no_frame; eauto.
        - apply elem_of_cons in Hin as [Heq|Hin]; [by inversion Heq|].
          apply list_elem_of_singleton in Hin. inversion Hin. }
      split_and!; try done.
      * intros f a r Hin. destruct (Hone _ _ _ Hin) as (-> & _). lia.
      * intros f a r ch x Hin Hno. destruct (Hone _ _ _ Hin) as (_ & -> & _).
        by destruct (Hno v).
      * intros f a v' Hin. destruct (Hone _ _ _ Hin) as (-> & Hv & ->).
        inversion Hv; subst. split; [done|]. exists evs. split; [done|].
        intros f' a' r' Hin'. exfalso. eapply quiet_no_frame; eauto.
  - inversion Hfr as [| |r p2 evs inp Ht Hq Hda Hd' Ha]; subst.
    destruct (IH Hd') as (evs' & Ht' & Hlen & HR & HU & HW & HD & HC & HF & HK).
    set (a0 := refresh params changed inbus frame (args p)) in *.
    exists (evs ++ [EvFrame frame a0 r] ++ evs').
    assert (Hsplit : forall f a r',
               EvFrame f a r' ∈ evs ++ [EvFrame frame a0 r] ++ evs' ->
               (f = frame /\ a = a0 /\ r' = r) \/ EvFrame f a r' ∈ evs').
    { intros f a r' Hin. apply elem_of_app in Hin as [Hin|Hin].
      - exfalso. eapply quiet_no_frame; eauto.
      - apply elem_of_app in Hin as [Hin|Hin]; [|by right].
        apply list_elem_of_singleton in Hin. inversion Hin. by left. }
    assert (Hr : forall v, r <> Yield v true).
    { intros v ->. rewrite Hd in Hda. done. }
    split_and!.
    + rewrite Ht', Ht. by rewrite <- !app_assoc.
    + by rewrite Hlen, shape_length.
    + intros f a r' Hin.
      destruct (Hsplit _ _ _ Hin) as [(-> & _)|Hin']; [lia|].
      destruct (HR _ _ _ Hin'). lia.
    + intros ch f Hall.
      assert (Hne : f <> frame).
      { intros ->. destruct (Hall a0 r) as [v Hv]; [|by destruct (Hr v)].
        apply elem_of_app. right. apply elem_of_app. left.
        by apply list_elem_of_singleton. }
      rewrite HU, shape_sample_other; [done|done|].
      intros a r' Hin. apply (Hall a r').
      apply elem_of_app. right. apply elem_of_app. by right.
    + intros f a r' ch x Hin Hno Hx.
      destruct (Hsplit _ _ _ Hin) as [(-> & -> & ->)|Hin'].
      * rewrite HU.
        -- by eapply shape_sample_frame.
        -- intros a r' Hin'. destruct (HR _ _ _ Hin'). lia.
      * destruct (HR _ _ _ Hin') as [Hge _].
        rewrite (HW f a r' ch x Hin' Hno).
        -- by rewrite shape_length.
        -- rewrite shape_sample_other; [done|lia].
    + intros f a v Hin.
      destruct (Hsplit _ _ _ Hin) as [(_ & _ & Hv)|Hin']; [by destruct (Hr v)|].
      destruct (HD _ _ _ Hin') as (Hc & evs0 & Hevs & Hlt).
      split; [done|].
      exists (evs ++ [EvFrame frame a0 r] ++ evs0).
      split; [by rewrite Hevs, <- !app_assoc|].
      intros f' a' r' Hin''.
      destruct (HR _ _ _ Hin') as [Hge _].
      apply elem_of_app in Hin'' as [Hin''|Hin''].
      { exfalso. eapply quiet_no_frame; eauto. }
      apply elem_of_app in Hin'' as [Hin''|Hin''].
      { apply list_elem_of_singleton in Hin''. inversion Hin''; subst. lia. }
      by eapply Hlt.
    + rewrite !count_app, (quiet_count_post _ _ Hq), HC. done.
    + rewrite !count_app, (quiet_count_post _ _ Hq),
        (quiet_count_done_frame _ Hq), HF.
      destruct r as [v|v [|]]; try done; by destruct (Hr v).
    + rewrite !count_app, (quiet_count_cleanup _ Hq), HK. done.
Qed.

(** What [this.next] is called with, along a run of the main loop. *)
Lemma loop_run_observed (I : FrameArgs -> Prop) (Phi : nat -> FrameArgs -> Prop)
    (params : gmap string (list float)) (changed : list string)
    (inbus : list (list float)) :
  (forall a inp, I a -> I (set_input inp a)) ->
  (forall frame a, I a ->
     I (refresh params changed inbus frame a)
     /\ Phi frame (refresh params changed inbus frame a)) ->
  forall n frame p output res,
    loop_run params changed inbus n frame p output res ->
    I (args p) ->
    exists evs,
      trace res.1.2 = trace p ++ evs /\
      forall f a r, EvFrame f a r ∈ evs -> frame <= f < frame + n /\ Phi f a.
Proof.
  intros Hinp Href.
  induction 1 as [frame p output
                 |n frame p output c p' output' Hfr
                 |n frame p output p1 output1 res Hfr Hrun IH]; intros HI; simpl.
  - exists []. rewrite app_nil_r. split; [done|].
    intros f a r Hin. inversion Hin.
  - destruct (Href frame _ HI) as [_ HPhi].
    inversion Hfr as [e p2 evs inp Ht Hq Hd' Ha
                     |r p2 evs inp Ht Hq Hda Hd' Ha|]; subst.
    + exists evs. split; [done|].
      intros f a r Hin. exfalso. eapply quiet_no_frame; eauto.
    + eexists. split; [exact Ht|].
      intros f a r' Hin. apply elem_of_app in Hin as [Hin|Hin].
      { exfalso. eapply quiet_no_frame; eauto. }
      apply elem_of_cons in Hin as [Heq|Hin].
      * inversion Heq; subst. split; [lia|done].
      * apply list_elem_of_singleton in Hin. inversion Hin.
  - destruct (Href frame _ HI) as [HI' HPhi].
    inversion Hfr as [| |r p2 evs inp Ht Hq Hda Hd' Ha]; subst.
    destruct IH as (evs' & Ht' & Hev).
    { rewrite Ha. by apply Hinp. }
    exists (evs ++ [EvFrame frame (refresh params changed inbus frame (args p)) r]
              ++ evs').
    split; [rewrite Ht', Ht; by rewrite <- !app_assoc|].
    intros f a r' Hin. apply elem_of_app in Hin as [Hin|Hin].
    { exfalso. eapply quiet_no_frame; eauto. }
    apply elem_of_app in Hin as [Hin|Hin].
    + apply list_elem_of_singleton in Hin. inversion Hin; subst. split; [lia|done].
    + destruct (Hev _ _ _ Hin) as [Hrange HP]. split; [lia|done].
Qed.

(** ** A block call, taken apart *)

Lemma process_done (p : Processor) sr inputs outputs params :
  isDone p = true ->
  process p sr inputs outputs params
  = (Throw (RangeError "Attempted to process after iterator has finished."),
     p, outputs).
Proof. unfold Worklet.process. by intros ->. Qed.

Lemma process_block (p : Processor) sr inputs outputs params :
  isDone p = false ->
  exists ps changed,
    init_loop params (parameters (args p)) = (ps, changed) /\
    ((exists p1,
         process p sr inputs outputs params = (Throw TypeError, p1, outputs) /\
         trace p1 = trace p /\ isDone p1 = false /\
         next p1 = next p /\ cleanup p1 = cleanup p /\ target p1 = target p /\
         (block_size outputs = 0
          \/ is_Some (params !! "hasOwnProperty"%string)))
     \/
     (exists output channel0 p2 res,
         outputs !! 0 = Some output /\ output !! 0 = Some channel0 /\
         parameters (args p2) = ps /\ input (args p2) = input (args p) /\
         trace p2 = trace p /\ isDone p2 = false /\
         next p2 = next p /\ cleanup p2 = cleanup p /\ target p2 = target p /\
         loop_run params changed (default [] (inputs !! 0))
           (length channel0) 0 p2 output res /\
         res = frame_loop params changed (default [] (inputs !! 0))
                 (length channel0) 0 p2 output /\
         process p sr inputs outputs params
         = (res.1.1, res.1.2, <[0 := res.2]> outputs))).
Proof.
  intros Hd. unfold Worklet.process, block_size. rewrite Hd.
  destruct (init_loop params (parameters (args p))) as [ps changed] eqn:Hl.
  exists ps, changed. split; [done|].
  destruct (params !! "hasOwnProperty"%string) as [own|] eqn:Hown.
  { rewrite (init_parameters_throws _ _ _ Hown). simpl.
    left. eexists. split_and!; try done. right. by eexists. }
  rewrite (init_parameters_returns _ _ Hown), Hl.
  destruct (outputs !! 0) as [output|] eqn:Ho; simpl.
  - destruct (output !! 0) as [channel0|] eqn:Hc.
    + right.
      set (p2 := set_args _ _).
      exists output, channel0, p2,
        (frame_loop params changed (default [] (inputs !! 0))
           (length channel0) 0 p2 output).
      split_and!; try done.
      * apply frame_loop_run.
      * by destruct (frame_loop _ _ _ _ _ _ _) as [[c p'] output'].
    + left. eexists. split_and!; try done. by left.
  - left. eexists. split_and!; try done. by left.
Qed.

Lemma block_events_app (p : Processor) sr inputs outputs params evs :
  trace (process p sr inputs outputs params).1.2 = trace p ++ evs ->
  block_events p sr inputs outputs params = evs.
Proof.
  unfold Worklet.block_events. intros ->. by rewrite drop_app_length.
Qed.

Lemma block_events_done (p : Processor) sr inputs outputs params :
  isDone p = true -> block_events p sr inputs outputs params = [].
Proof.
  intros Hd. apply block_events_app. rewrite process_done by done.
  simpl. by rewrite app_nil_r.
Qed.

(** ** What the implementation is called with *)

Lemma invoke_calls (p : Processor) (a : FrameArgs) c p1 :
  invoke p a = (c, p1) ->
  (exists r, c = Return r /\ trace p1 = trace p ++ [EvCall a])
  \/ (exists e, c = Throw e /\ trace p1 = trace p).
Proof.
  unfold Worklet.invoke. intros H.
  destruct (next p) as [|f|m].
  - inversion H; subst. right. by eexists.
  - destruct (f a) as [r inp]. inversion H; subst. left. by eexists.
  - destruct (target p) as [o|].
    + destruct (m o a) as [o' [r inp]]. inversion H; subst. left. by eexists.
    + inversion H; subst. right. by eexists.
Qed.

(** Every run of the frame function or of a bound [next] is the call of
    [this.next] of some frame of the block, with the same arguments. *)
Lemma frame_body_calls (params : gmap string (list float))
    (changed : list string) (inbus : list (list float)) (frame : nat)
    (p : Processor) (output : list (list float)) fl p' output' :
  frame_body params changed inbus frame p output = (fl, p', output') ->
  exists evs,
    trace p' = trace p ++ evs /\
    forall a, EvCall a ∈ evs -> exists r, EvFrame frame a r ∈ evs.
Proof.
  unfold Worklet.frame_body. intros H.
  set (a0 := refresh params changed inbus frame (args p)) in *.
  assert (Hcall : exists pre,
             (forall a, EvCall a ∈ pre -> False) /\
             ((exists r p1, call_next (set_args a0 p) = (Return r, p1)
                            /\ (trace p1 = trace p ++ pre ++ [EvCall a0]
                                \/ trace p1 = trace p ++ pre))
              \/ (exists e p1, call_next (set_args a0 p) = (Throw e, p1)
                               /\ trace p1 = trace p ++ pre))).
  { unfold Worklet.call_next, Worklet.first. simpl.
    assert (Hno : forall (e : Event) a, e <> EvCall a -> EvCall a ∈ [e] -> False).
    { intros e a Hne Hin. apply list_elem_of_singleton in Hin. by destruct Hne. }
    assert (Hnil : forall a, EvCall a ∈ @nil Event -> False).
    { intros a Hin. inversion Hin. }
    destruct (next p) as [|f|m] eqn:Hn.
    - destruct implementation as [impl|impl|impl].
      + exists [EvCreate a0]. split; [intros a; by apply Hno|].
        left. eexists _, _. split; [reflexivity|]. by right.
      + exists []. split; [done|].
        destruct (invoke (set_next (PureFn impl) (set_args a0 p)) a0)
          as [c p1] eqn:Hi.
        destruct (invoke_calls _ _ _ _ Hi) as [(r & -> & Ht)|(e & -> & Ht)];
          simpl in Ht; [left|right]; eexists _, _; (split; [reflexivity|]);
          rewrite Ht; auto.
        by rewrite app_nil_r.
      + exists [EvNew None]. split; [intros a; by apply Hno|].
        destruct (inst_next (impl None)) as [m|].
        * match goal with
          | |- context [invoke ?q ?x] => destruct (invoke q x) as [c p1] eqn:Hi
          end.
          destruct (invoke_calls _ _ _ _ Hi) as [(r & -> & Ht)|(e & -> & Ht)];
            simpl in Ht; [left|right]; eexists _, _; (split; [reflexivity|]);
            rewrite Ht, <- ?app_assoc; auto.
        * right. by eexists _, _.
    - exists []. split; [done|].
      destruct (invoke (set_args a0 p) a0) as [c p1] eqn:Hi.
      destruct (invoke_calls _ _ _ _ Hi) as [(r & -> & Ht)|(e & -> & Ht)];
        simpl in Ht; [left|right]; eexists _, _; (split; [reflexivity|]);
        rewrite Ht; auto.
      by rewrite app_nil_r.
    - exists []. split; [done|].
      destruct (invoke (set_args a0 p) a0) as [c p1] eqn:Hi.
      destruct (invoke_calls _ _ _ _ Hi) as [(r & -> & Ht)|(e & -> & Ht)];
        simpl in Ht; [left|right]; eexists _, _; (split; [reflexivity|]);
        rewrite Ht; auto.
      by rewrite app_nil_r. }
  destruct Hcall as (pre & Hpre & [(r & p1 & Hc & Ht)|(e & p1 & Hc & Ht)]);
    rewrite Hc in H.
  - assert (Hshape : exists post,
               trace p' = trace p1 ++ EvFrame frame a0 r :: post /\
               forall a, EvCall a ∈ post -> False).
    { assert (Hdone : forall a, EvCall a ∈ [EvPost "done"] -> False).
      { intros a Hin. apply list_elem_of_singleton in Hin. inversion Hin. }
      assert (Hnil : forall a, EvCall a ∈ @nil Event -> False).
      { intros a Hin. inversion Hin. }
      destruct r as [value|value done]; simpl in H.
      - destruct (isDone p1); inversion H; subst; simpl.
        + exists [EvPost "done"]. by rewrite <- app_assoc.
        + by exists [].
      - destruct done; inversion H; subst; simpl.
        + exists [EvPost "done"]. by rewrite <- app_assoc.
        + by exists []. }
    destruct Hshape as (post & Htp & Hpost).
    assert (Hcases : forall evs1,
               (evs1 = pre ++ [EvCall a0] \/ evs1 = pre) ->
               forall a, EvCall a ∈ evs1 ++ EvFrame frame a0 r :: post ->
                         exists r', EvFrame frame a r' ∈ evs1 ++ EvFrame frame a0 r :: post).
    { intros evs1 Hev a Hin. apply elem_of_app in Hin as [Hin|Hin].
      - destruct Hev as [->| ->]; [|by destruct (Hpre _ Hin)].
        apply elem_of_app in Hin as [Hin|Hin]; [by destruct (Hpre _ Hin)|].
        apply list_elem_of_singleton in Hin. inversion Hin; subst.
        exists r. apply elem_of_app. right. left.
      - apply elem_of_cons in Hin as [Hin|Hin]; [inversion Hin|].
        by destruct (Hpost _ Hin). }
    destruct Ht as [Ht|Ht]; rewrite Htp, Ht.
    + exists ((pre ++ [EvCall a0]) ++ EvFrame frame a0 r :: post).
      split; [by rewrite <- !app_assoc|]. apply Hcases. by left.
    + exists (pre ++ EvFrame frame a0 r :: post).
      split; [by rewrite <- !app_assoc|]. apply Hcases. by right.
  - inversion H; subst. exists pre. split; [done|].
    intros a Hin. by destruct (Hpre _ Hin).
Qed.

Lemma frame_loop_calls (params : gmap string (list float))
    (changed : list string) (inbus : list (list float)) (n frame : nat)
    (p : Processor) (output : list (list float)) :
  exists evs,
    trace (frame_loop params changed inbus n frame p output).1.2
    = trace p ++ evs /\
    forall a, EvCall a ∈ evs -> exists f r, EvFrame f a r ∈ evs.
Proof.
  revert frame p output. induction n as [|n IH]; intros frame p output; simpl.
  - exists []. rewrite app_nil_r. split; [done|]. intros a Hin. inversion Hin.
  - destruct (frame_body params changed inbus frame p output)
      as [[[c|] p'] output'] eqn:Hb;
      destruct (frame_body_calls _ _ _ _ _ _ _ _ _ Hb) as (evs & Ht & Hev).
    + exists evs. split; [done|]. intros a Hin.
      destruct (Hev _ Hin) as [r Hr]. by exists frame, r.
    + destruct (IH (S frame) p' output') as (evs' & Ht' & Hev').
      exists (evs ++ evs'). split; [by rewrite Ht', Ht, <- app_assoc|].
      intros a Hin. apply elem_of_app in Hin as [Hin|Hin].
      * destruct (Hev _ Hin) as [r Hr]. exists frame, r.
        apply elem_of_app. by left.
      * destruct (Hev' _ Hin) as (f & r & Hr). exists f, r.
        apply elem_of_app. by right.
Qed.

Lemma block_calls_are_frames (p : Processor) sr inputs outputs params a :
  EvCall a ∈ block_events p sr inputs outputs params ->
  exists f r, EvFrame f a r ∈ block_events p sr inputs outputs params.
Proof.
  intros Hin.
  destruct (isDone p) eqn:Hd.
  { rewrite block_events_done in Hin by done. inversion Hin. }
  destruct (process_block p sr inputs outputs params Hd)
    as (ps & changed & Hinit & Hcases).
  destruct Hcases as [(p1 & Hp & Ht & _)
                     |(output & channel0 & p2 & res & _ & _ & _ & _ & Ht2
                       & _ & _ & _ & _ & _ & Hres & Hp)].
  { rewrite (block_events_app _ _ _ _ _ []) in Hin; [inversion Hin|].
    rewrite Hp. simpl. by rewrite app_nil_r. }
  destruct (frame_loop_calls params changed (default [] (inputs !! 0))
              (length channel0) 0 p2 output) as (evs & Ht & Hev).
  rewrite <- Hres in Ht.
  rewrite (block_events_app _ _ _ _ _ evs) in *;
    [by apply Hev| |]; rewrite Hp; simpl; by rewrite Ht, Ht2.
Qed.

(** ** The input frame *)

Lemma update_input_disconnected (frame : nat) (inp : list (option float)) :
  update_input [] frame inp = inp.
Proof. reflexivity. Qed.

Lemma update_input_prefix (inbus : list (list float)) (frame : nat)
    (inp : list (option float)) (k : nat) :
  k <= length inbus ->
  let l := foldl (fun inp channel =>
                    <[channel := inbus !! channel ≫= (fun ch => ch !! frame)]>
                      (resize (length inbus) None inp))
                 inp (seq 0 k) in
  (0 < k -> length l = length inbus) /\
  forall c, c < k -> l !! c = Some (inbus !! c ≫= (fun ch => ch !! frame)).
Proof.
  induction k as [|k IH]; intros Hk; cbv zeta in *.
  - split; intros; lia.
  - rewrite seq_S, foldl_app. simpl.
    destruct IH as [_ IHl]; [lia|].
    split.
    + intros _. by rewrite length_insert, length_resize.
    + intros c Hc. destruct (decide (c = k)) as [->|Hne].
      * apply list_lookup_insert_eq. rewrite length_resize. lia.
      * rewrite list_lookup_insert_ne by done.
        assert (Hck : c < k) by lia.
        specialize (IHl c Hck).
        rewrite lookup_resize; [done|lia|by eapply lookup_lt_Some].
Qed.

(** When the input bus has a channel, the refresh makes [args.input] the
    column of the bus at the frame, whatever it held before. *)
Lemma update_input_connected (inbus : list (list float)) (frame : nat)
    (inp : list (option float)) :
  inbus <> [] ->
  update_input inbus frame inp = (fun ch => ch !! frame) <$> inbus.
Proof.
  intros Hne. unfold update_input.
  destruct (update_input_prefix inbus frame inp (length inbus)) as [Hlen Hl];
    [done|].
  assert (Hpos : 0 < length inbus) by (destruct inbus; [done|simpl; lia]).
  apply list_eq. intros c. rewrite list_lookup_fmap.
  destruct (decide (c < length inbus)) as [Hc|Hc].
  - rewrite (Hl c Hc).
    destruct (lookup_lt_is_Some_2 inbus c Hc) as [ch Hch]. by rewrite Hch.
  - rewrite !lookup_ge_None_2; [done|lia|]. rewrite (Hlen Hpos). lia.
Qed.

(** X14: when the input bus of a block has at least one channel, every
    frame is called with [args.input] equal to the samples of the channels at
    that frame, one entry for each channel, whatever the previous frame or
    the implementation left in it. *)
Lemma input_refreshed_when_connected (p : Processor) sr inputs outputs params
    f a r :
  default [] (inputs !! 0) <> [] ->
  EvFrame f a r ∈ block_events p sr inputs outputs params ->
  input a = (fun ch => ch !! f) <$> default [] (inputs !! 0).
Proof.
  intros Hne Hin.
  destruct (isDone p) eqn:Hd.
  { rewrite block_events_done in Hin by done. inversion Hin. }
  destruct (process_block p sr inputs outputs params Hd)
    as (ps & changed & Hinit & Hcases).
  destruct Hcases as [(p1 & Hp & Ht & _)
                     |(output & channel0 & p2 & res & _ & _ & _ & _ & Ht2
                       & _ & _ & _ & _ & Hrun & _ & Hp)].
  { rewrite (block_events_app _ _ _ _ _ []) in Hin; [inversion Hin|].
    rewrite Hp. simpl. by rewrite app_nil_r. }
  destruct (loop_run_observed
              (fun _ => True)
              (fun frame a =>
                 input a = (fun ch => ch !! frame) <$> default [] (inputs !! 0))
              params changed (default [] (inputs !! 0)))
    with (n := length channel0) (frame := 0) (p := p2) (output := output)
         (res := res) as (evs & Ht & Hev); try done.
  - intros frame a' _. split; [done|]. simpl. by apply update_input_connected.
  - rewrite (block_events_app _ _ _ _ _ evs) in Hin.
    + by destruct (Hev _ _ _ Hin).
    + rewrite Hp. simpl. by rewrite Ht, Ht2.
Qed.

(** ** The first frame of a function and of a class *)

(** [first] on a pure function: the function is stored and called at once. *)
Lemma first_frame_pure (impl : FrameArgs -> Answer) (p : Processor) :
  implementation = TypeP impl -> next p = First ->
  exists p',
    call_next p = (Return (impl (args p)).1, p') /\
    trace p' = trace p ++ [EvCall (args p)] /\ next p' = PureFn impl.
Proof.
  intros Hi Hn. unfold Worklet.call_next, Worklet.first. rewrite Hn, Hi.
  unfold Worklet.invoke. simpl. destruct (impl (args p)) as [r inp]. simpl.
  eexists. by split_and!.
Qed.

(** [first] on a class: the constructor runs with no argument; an instance
    with a [next] has it bound, stored and called at once, and one without
    makes [first] throw. *)
Lemma first_frame_class (impl : option FrameArgs -> Instance) (p : Processor) :
  implementation = TypeC impl -> next p = First ->
  match inst_next (impl None) with
  | Some m =>
      let ans := m (inst_state (impl None)) (args p) in
      exists p',
        call_next p = (Return ans.2.1, p') /\
        trace p' = trace p ++ [EvNew None; EvCall (args p)] /\
        next p' = Bound m /\ target p' = Some ans.1
  | None =>
      call_next p
      = (Throw (Error "Argument must be a pure function, a generator function, or a class that defines next()."),
         emit (EvNew None) p)
  end.
Proof.
  intros Hi Hn. unfold Worklet.call_next, Worklet.first. rewrite Hn, Hi.
  destruct (inst_next (impl None)) as [m|]; [|done].
  unfold Worklet.invoke. simpl.
  destruct (m (inst_state (impl None)) (args p)) as [o' [r inp]]. simpl.
  eexists. split; [reflexivity|]. simpl. by rewrite <- app_assoc.
Qed.

(** ** Parameter automation *)

Lemma block_size_lookup (outputs : list (list (list float))) output channel0 :
  outputs !! 0 = Some output -> output !! 0 = Some channel0 ->
  block_size outputs = length channel0.
Proof. unfold block_size. intros -> . simpl. by intros ->. Qed.

Lemma block_frames_observed (p : Processor) sr inputs outputs params
    name arr f a r :
  params !! name = Some arr -> name <> "__proto__"%string ->
  EvFrame f a r ∈ block_events p sr inputs outputs params ->
  f < block_size outputs /\
  parameters a !! name = Some (arr !! (if decide (length arr = 1) then 0 else f)).
Proof.
  intros Hname Hproto Hin.
  destruct (isDone p) eqn:Hd.
  { rewrite block_events_done in Hin by done. inversion Hin. }
  destruct (process_block p sr inputs outputs params Hd)
    as (ps & changed & Hinit & Hcases).
  destruct (init_parameters_spec _ _ _ _ Hinit) as [Hps Hch].
  destruct Hcases as [(p1 & Hp & Ht & _)
                     |(output & channel0 & p2 & res & Ho & Hc & Hps2 & _ & Ht2
                       & _ & _ & _ & _ & Hrun & _ & Hp)].
  { rewrite (block_events_app _ _ _ _ _ []) in Hin; [inversion Hin|].
    rewrite Hp. simpl. by rewrite app_nil_r. }
  rewrite (block_size_lookup _ _ _ Ho Hc).
  destruct (decide (length arr = 1)) as [Hone|Hmany].
  - assert (Hnot : name ∉ changed).
    { rewrite Hch. intros (arr' & Hn' & Hl). rewrite Hname in Hn'.
      inversion Hn'; subst. done. }
    destruct (loop_run_observed
                (fun a => parameters a !! name = Some (arr !! 0))
                (fun _ a => parameters a !! name = Some (arr !! 0))
                params changed (default [] (inputs !! 0)))
      with (n := length channel0) (frame := 0) (p := p2) (output := output)
           (res := res) as (evs & Ht & Hev); try done.
    + intros frame a' Ha'. simpl. rewrite update_changed_lookup by done.
      by destruct (decide (name ∈ changed)).
    + rewrite Hps2. by apply Hps.
    + rewrite (block_events_app _ _ _ _ _ evs) in Hin.
      * destruct (Hev _ _ _ Hin) as [Hr HP]. split; [lia|done].
      * rewrite Hp. simpl. by rewrite Ht, Ht2.
  - assert (Hyes : name ∈ changed).
    { rewrite Hch. by exists arr. }
    destruct (loop_run_observed
                (fun _ => True)
                (fun frame a => parameters a !! name = Some (arr !! frame))
                params changed (default [] (inputs !! 0)))
      with (n := length channel0) (frame := 0) (p := p2) (output := output)
           (res := res) as (evs & Ht & Hev); try done.
    + intros frame a' _. split; [done|]. simpl. rewrite update_changed_lookup by done.
      destruct (decide (name ∈ changed)); [|done]. by rewrite Hname.
    + rewrite (block_events_app _ _ _ _ _ evs) in Hin.
      * destruct (Hev _ _ _ Hin) as [Hr HP]. split; [lia|done].
      * rewrite Hp. simpl. by rewrite Ht, Ht2.
Qed.

(** X17: in any block call, the arguments [this.next] is called with at
    frame [f] hold, for a parameter not named "__proto__" whose automation
    array has as many entries as the block has frames, the array's entry at
    position [f]; and for such a parameter whose array has one entry, that
    entry, at every frame. *)
Theorem automation_observed_per_frame (p : Processor) sr inputs outputs params
    name arr f a r :
  params !! name = Some arr -> name <> "__proto__"%string ->
  EvFrame f a r ∈ block_events p sr inputs outputs params ->
  (length arr = block_size outputs ->
   exists x, arr !! f = Some x /\ parameters a !! name = Some (Some x)) /\
  (length arr = 1 ->
   exists x, arr = [x] /\ parameters a !! name = Some (Some x)).
Proof.
  intros Hname Hproto Hin.
  destruct (block_frames_observed _ _ _ _ _ _ _ _ _ _ Hname Hproto Hin)
    as [Hf Hobs].
  split.
  - intros Hlen.
    destruct (lookup_lt_is_Some_2 arr f) as [x Hx]; [lia|].
    exists x. split; [done|]. rewrite Hobs.
    destruct (decide (length arr = 1)) as [Hone|]; [|by rewrite Hx].
    assert (f = 0) as -> by lia. by rewrite Hx.
  - intros Hone. destruct arr as [|x [|y arr]]; try done.
    exists x. split; [done|]. rewrite Hobs. done.
Qed.

(** ** Output shaping and completion *)

(** What a block call that enters the main loop does to the output bus and
    to the trace. *)
Lemma process_counts (p : Processor) sr inputs outputs params :
  isDone p = false ->
  exists evs,
    trace (process p sr inputs outputs params).1.2 = trace p ++ evs /\
    count (is_post "done") evs
    = (if isDone (process p sr inputs outputs params).1.2 then 1 else 0) /\
    count is_done_frame evs = count (is_post "done") evs /\
    count is_cleanup evs = 0.
Proof.
  intros Hd.
  destruct (process_block p sr inputs outputs params Hd)
    as (ps & changed & Hinit & Hcases).
  destruct Hcases as [(p1 & Hp & Ht & Hd1 & _)
                     |(output1 & channel0 & p2 & res & Ho1 & Hc & _ & _ & Ht2
                       & Hd2 & _ & _ & _ & Hrun & _ & Hp)].
  - exists []. rewrite Hp. simpl. rewrite Hd1, app_nil_r. by split_and!.
  - destruct (loop_run_inv _ _ _ _ _ _ _ _ Hrun Hd2)
      as (evs & Ht & _ & _ & _ & _ & _ & HC & HF & HK).
    exists evs. rewrite Hp. simpl. rewrite Ht, Ht2. by split_and!.
Qed.

Lemma process_loop_inv (p : Processor) sr inputs outputs params f0 a0 r0 :
  EvFrame f0 a0 r0 ∈ block_events p sr inputs outputs params ->
  exists output res n,
    outputs !! 0 = Some output /\
    process p sr inputs outputs params = (res.1.1, res.1.2, <[0 := res.2]> outputs) /\
    (<[0 := res.2]> outputs) !! 0 = Some res.2 /\
    isDone p = false /\
    (forall f a r, EvFrame f a r ∈ block_events p sr inputs outputs params ->
                   f < n) /\
    (forall ch f,
        (forall a r, EvFrame f a r ∈ block_events p sr inputs outputs params ->
                     exists v, r = Yield v true) ->
        sample res.2 ch f = sample output ch f) /\
    (forall f a r ch x,
        EvFrame f a r ∈ block_events p sr inputs outputs params ->
        (forall v, r <> Yield v true) ->
        sample output ch f = Some x ->
        sample res.2 ch f
        = Some (store_f32 (picked (value_of r) (length output) ch))) /\
    (forall f a v,
        EvFrame f a (Yield v true) ∈ block_events p sr inputs outputs params ->
        res.1.1 = Return false /\ isDone res.1.2 = true /\
        exists evs0,
          block_events p sr inputs outputs params
          = evs0 ++ [EvFrame f a (Yield v true); EvPost "done"] /\
          forall f' a' r', EvFrame f' a' r' ∈ evs0 -> f' < f).
Proof.
  intros Hin.
  destruct (isDone p) eqn:Hd.
  { rewrite block_events_done in Hin by done. inversion Hin. }
  destruct (process_block p sr inputs outputs params Hd)
    as (ps & changed & Hinit & Hcases).
  destruct Hcases as [(p1 & Hp & Ht & _)
                     |(output & channel0 & p2 & res & Ho & Hc & _ & _ & Ht2
                       & Hd2 & _ & _ & _ & Hrun & _ & Hp)].
  { rewrite (block_events_app _ _ _ _ _ []) in Hin; [inversion Hin|].
    rewrite Hp. simpl. by rewrite app_nil_r. }
  destruct (loop_run_inv _ _ _ _ _ _ _ _ Hrun Hd2)
    as (evs & Ht & Hlen & HR & HU & HW & HD & HC & _).
  assert (Hev : block_events p sr inputs outputs params = evs).
  { apply block_events_app. rewrite Hp. simpl. by rewrite Ht, Ht2. }
  rewrite Hev in *.
  exists output, res, (length channel0). split_and!; try done.
  - apply list_lookup_insert_eq. by eapply lookup_lt_Some.
  - intros f a r Hin'. destruct (HR _ _ _ Hin'). lia.
  - intros f a v Hin'. destruct (HD _ _ _ Hin') as (Hret & evs0 & Hevs & Hlt).
    split_and!; [done| |by exists evs0].
    rewrite Hevs, !count_app in HC. simpl in HC.
    destruct (isDone res.1.2); [done|]. unfold count in HC. simpl in HC. lia.
Qed.

(** C2: a frame whose result does not carry [done = true] is shaped into the
    output bus: a sequence at least as long as the bus has channels goes
    entry by entry to the channels, a shorter one gives its first entry to
    every channel, and a number goes to every channel.  What is read back
    is what the [Float32Array] stored: the number narrowed by [fround], and
    NaN for [undefined]. *)
Theorem frame_value_shaped (p : Processor) sr inputs outputs params
    output f a r c x :
  outputs !! 0 = Some output ->
  EvFrame f a r ∈ block_events p sr inputs outputs params ->
  (forall v, r <> Yield v true) ->
  sample output c f = Some x ->
  exists output',
    (process p sr inputs outputs params).2 !! 0 = Some output' /\
    match value_of r with
    | Some (Arr xs) =>
        (length output <= length xs ->
         sample output' c f = Some (store_f32 (js_index xs c))) /\
        (length xs < length output ->
         sample output' c f = Some (store_f32 (js_index xs 0)))
    | Some (Num v) => sample output' c f = Some (fround v)
    | None => sample output' c f = Some nan
    end.
Proof.
  intros Ho Hin Hnot Hx.
  destruct (process_loop_inv _ _ _ _ _ _ _ _ Hin)
    as (output1 & res & n & Ho1 & Hp & Hl & _ & _ & _ & HW & _).
  rewrite Ho in Ho1. inversion Ho1; subst output1.
  exists res.2. rewrite Hp. split; [done|].
  specialize (HW _ _ _ _ _ Hin Hnot Hx). unfold picked in HW.
  destruct (value_of r) as [[v|xs]|]; [done| |done].
  destruct (decide (length output <= length xs)); split; intros; try done; lia.
Qed.

(** C10: when the result at frame [k] carries [done = true], the block call
    posts "done" and returns [false] at once, and every output sample at a
    frame from [k] on is what it was when the call began: the value that
    came with the result is not written. *)
Theorem done_frame_leaves_output (p : Processor) sr inputs outputs params
    output k a v :
  outputs !! 0 = Some output ->
  EvFrame k a (Yield v true) ∈ block_events p sr inputs outputs params ->
  (process p sr inputs outputs params).1.1 = Return false /\
  (exists evs0,
      block_events p sr inputs outputs params
      = evs0 ++ [EvFrame k a (Yield v true); EvPost "done"] /\
      forall f' a' r', EvFrame f' a' r' ∈ evs0 -> f' < k) /\
  exists output',
    (process p sr inputs outputs params).2 !! 0 = Some output' /\
    forall c f, k <= f -> sample output' c f = sample output c f.
Proof.
  intros Ho Hin.
  destruct (process_loop_inv _ _ _ _ _ _ _ _ Hin)
    as (output1 & res & n & Ho1 & Hp & Hl & _ & _ & HU & _ & HD).
  rewrite Ho in Ho1. inversion Ho1; subst output1.
  destruct (HD _ _ _ Hin) as (Hc & _ & evs0 & Hev & Hlt).
  rewrite Hp. simpl. split_and!; [done|by exists evs0|].
  exists res.2. split; [done|].
  intros c f Hkf. apply HU. intros a' r' Hin'. rewrite Hev in Hin'.
  apply elem_of_app in Hin' as [Hin'|Hin'].
  - specialize (Hlt _ _ _ Hin'). lia.
  - apply elem_of_cons in Hin' as [Heq|Hin'].
    + inversion Heq. by exists v.
    + apply list_elem_of_singleton in Hin'. inversion Hin'.
Qed.

(** ** Termination *)

Lemma casing_of_stop (data : string) :
  data ∈ casings "stop" -> toLowerCase data = "stop"%string.
Proof.
  intros H. cbn in H.
  repeat (apply elem_of_cons in H as [->|H]; [reflexivity|]).
  inversion H.
Qed.

Lemma stop_spec (p : Processor) :
  isDone (stop p) = true /\ next (stop p) = next p /\
  cleanup (stop p) = cleanup p /\ args (stop p) = args p /\
  trace (stop p)
  = trace p ++ (match cleanup p with Some _ => [EvCleanup] | None => [] end).
Proof.
  unfold Worklet.stop. simpl.
  destruct (cleanup p) eqn:Hc; simpl; rewrite ?Hc, ?app_nil_r; done.
Qed.

Lemma onmessage_stop (p : Processor) (data : string) :
  data ∈ casings "stop" -> onmessage data p = stop p.
Proof.
  intros H. unfold Worklet.onmessage. by rewrite (casing_of_stop _ H).
Qed.

(** C7: a block call made once [isDone] has been set, by a frame result that
    carried [done = true] or by a "stop" message in any letter casing, throws
    the [RangeError] at its entry: no frame runs, and the processor and the
    output buffers are left as they were. *)
Theorem process_after_done_throws (q : Processor) sr inputs outputs params :
  flag_set q ->
  process q sr inputs outputs params
  = (Throw (RangeError "Attempted to process after iterator has finished."),
     q, outputs).
Proof.
  intros Hset. apply process_done.
  destruct Hset as [p sr' inputs' outputs' params' k a v Hin|p data Hd].
  - destruct (process_loop_inv _ _ _ _ _ _ _ _ Hin)
      as (output & res & n & _ & Hp & _ & _ & _ & _ & _ & HD).
    destruct (HD _ _ _ Hin) as (_ & Hdone & _). by rewrite Hp.
  - rewrite onmessage_stop by done. apply stop_spec.
Qed.

(** Once the flag is set, nothing the host does between blocks changes the
    processor but for the cleanup a further "stop" runs. *)
Lemma act_done (p : Processor) (a : Action) :
  isDone p = true ->
  isDone (act p a) = true /\
  exists evs, trace (act p a) = trace p ++ evs /\
              Forall (fun e => e = EvCleanup) evs.
Proof.
  intros Hd. destruct a as [sr inputs outputs params|data]; simpl.
  - rewrite process_done by done. simpl. split; [done|].
    exists []. by rewrite app_nil_r.
  - unfold Worklet.onmessage.
    destruct (String.eqb (toLowerCase data) "stop").
    + destruct (stop_spec p) as (H1 & _ & _ & _ & Ht). split; [done|].
      eexists. split; [exact Ht|]. destruct (cleanup p); by repeat constructor.
    + split; [done|]. exists []. by rewrite app_nil_r.
Qed.


Lemma cleanups_count (f : Event -> bool) (evs : list Event) :
  f EvCleanup = false -> Forall (fun e => e = EvCleanup) evs -> count f evs = 0.
Proof.
  intros Hf. induction 1 as [|e evs -> _ IH]; [done|].
  change (EvCleanup :: evs) with ([EvCleanup] ++ evs).
  rewrite count_app, IH. unfold count. simpl. by rewrite Hf.
Qed.


(** C6, as the code has it: over a lifetime of block calls and control
    messages, "done" is posted once for each frame result that carried
    [done = true] and never otherwise, and that is at most once. *)
Theorem done_posted_at_most_once (occ : option (list nat)) (sr : float)
    (acts : list Action) :
  count (is_post "done") (trace (run acts (construct occ sr)))
  = count is_done_frame (trace (run acts (construct occ sr))) /\
  count (is_post "done") (trace (run acts (construct occ sr))) <= 1.
Proof.
  assert (Hinv : forall acts (p : Processor),
             count (is_post "done") (trace p) = count is_done_frame (trace p) ->
             count (is_post "done") (trace p) <= 1 ->
             (isDone p = false -> count (is_post "done") (trace p) = 0) ->
             count (is_post "done") (trace (run acts p))
             = count is_done_frame (trace (run acts p)) /\
             count (is_post "done") (trace (run acts p)) <= 1).
  { clear acts. induction acts as [|a acts IH]; intros p He Hle Hz; [done|].
    simpl. destruct (isDone p) eqn:Hd.
    - destruct (act_done p a Hd) as (Hd1 & evs1 & Ht1 & Hc1).
      apply IH; rewrite ?Ht1, ?count_app, ?(cleanups_count _ evs1) by done;
        try lia. by rewrite Hd1.
    - specialize (Hz eq_refl).
      destruct a as [sr' inputs outputs params|data]; simpl.
      + destruct (process_counts p sr' inputs outputs params Hd)
          as (evs & Ht & HC & HF & _).
        apply IH; rewrite Ht, !count_app, ?HF, HC, <- ?He, Hz;
          destruct (isDone (process p sr' inputs outputs params).1.2);
          simpl; try done; lia.
      + unfold Worklet.onmessage.
        destruct (String.eqb (toLowerCase data) "stop"); [|by apply IH].
        destruct (stop_spec p) as (H1 & _ & _ & _ & Ht).
        apply IH; rewrite ?Ht, ?count_app, <- ?He, ?Hz; try done;
          destruct (cleanup p); unfold count; simpl; lia. }
  apply Hinv; simpl; try done. unfold count; simpl; lia.
Qed.

(** ** Cleanup *)

Lemma frame_body_resolved (params : gmap string (list float))
    (changed : list string) (inbus : list (list float)) (frame : nat)
    (p : Processor) (output : list (list float)) fl p' output' :
  next p <> First ->
  frame_body params changed inbus frame p output = (fl, p', output') ->
  next p' = next p /\ cleanup p' = cleanup p.
Proof.
  unfold Worklet.frame_body, Worklet.call_next. simpl. intros Hn H.
  destruct (next p) as [|f|m] eqn:Hnp; [done| |];
    match type of H with
    | context [invoke ?q ?a] =>
        destruct (invoke q a) as [[r|e] p1] eqn:Hi;
        destruct (invoke_spec _ _ _ _ Hi) as (_ & _ & _ & _ & _ & _ & Hn1 & Hc1);
        simpl in Hn1, Hc1
    end;
    try (inversion H; subst; by rewrite Hn1, Hc1);
    destruct r as [value|value done]; simpl in H;
    match type of H with
    | (if ?b then _ else _) = _ => destruct b
    end; inversion H; subst; simpl; by rewrite Hn1, Hc1.
Qed.

Lemma frame_loop_resolved (params : gmap string (list float))
    (changed : list string) (inbus : list (list float)) (n frame : nat)
    (p : Processor) (output : list (list float)) :
  next p <> First ->
  next (frame_loop params changed inbus n frame p output).1.2 = next p /\
  cleanup (frame_loop params changed inbus n frame p output).1.2 = cleanup p.
Proof.
  revert frame p output. induction n as [|n IH]; intros frame p output Hn; simpl.
  - done.
  - destruct (frame_body params changed inbus frame p output)
      as [[[c|] p'] output'] eqn:Hb;
      destruct (frame_body_resolved _ _ _ _ _ _ _ _ _ Hn Hb) as [Hn' Hc'].
    + done.
    + destruct (IH (S frame) p' output') as [Hn2 Hc2]; [by rewrite Hn'|].
      by rewrite Hn2, Hc2.
Qed.

Lemma act_resolved (p : Processor) (a : Action) :
  next p <> First ->
  next (act p a) = next p /\ cleanup (act p a) = cleanup p /\
  count is_cleanup (trace (act p a))
  = count is_cleanup (trace p)
    + (if is_stop a then match cleanup p with Some _ => 1 | None => 0 end
       else 0).
Proof.
  intros Hn. destruct a as [sr inputs outputs params|data]; simpl.
  - destruct (isDone p) eqn:Hd.
    { rewrite process_done by done. simpl. split_and!; [done|done|lia]. }
    destruct (process_counts p sr inputs outputs params Hd)
      as (evs & Ht & _ & _ & HK).
    rewrite Ht, count_app, HK.
    destruct (process_block p sr inputs outputs params Hd)
      as (ps & changed & Hinit & Hcases).
    destruct Hcases as [(p1 & Hp & _ & _ & Hn1 & Hc1 & _)
                       |(output & channel0 & p2 & res & _ & _ & _ & _ & _
                         & _ & Hn2 & Hc2 & _ & _ & Hres & Hp)].
    + rewrite Hp. simpl. split_and!; [done|done|lia].
    + rewrite Hp. simpl. rewrite Hres.
      destruct (frame_loop_resolved params changed (default [] (inputs !! 0))
                  (length channel0) 0 p2 output) as [Hn3 Hc3];
        [by rewrite Hn2|].
      rewrite Hn3, Hc3, Hn2, Hc2. split_and!; [done|done|lia].
  - unfold Worklet.onmessage.
    destruct (String.eqb (toLowerCase data) "stop").
    + destruct (stop_spec p) as (_ & Hn1 & Hc1 & _ & Ht).
      rewrite Hn1, Hc1, Ht, count_app. split_and!; [done|done|].
      by destruct (cleanup p).
    + split_and!; [done|done|lia].
Qed.

(** C9, as the code has it: once the coroutine exists, every "stop" message
    sets [isDone] and runs the captured cleanup, so over a lifetime the
    cleanup is invoked once per "stop" message received (exactly once when
    exactly one is received); if no cleanup was captured, [stop] sets
    [isDone] and invokes nothing. *)
Theorem cleanup_once_per_stop (p : Processor) (acts : list Action) :
  next p <> First ->
  (isDone (stop p) = true /\
   trace (stop p)
   = trace p ++ match cleanup p with Some _ => [EvCleanup] | None => [] end) /\
  count is_cleanup (trace (run acts p))
  = count is_cleanup (trace p)
    + match cleanup p with Some _ => count is_stop acts | None => 0 end.
Proof.
  intros Hn. split.
  { destruct (stop_spec p) as (H1 & _ & _ & _ & Ht). done. }
  revert p Hn. induction acts as [|a acts IH]; intros p Hn; simpl.
  - unfold count. simpl. destruct (cleanup p); lia.
  - destruct (act_resolved p a Hn) as (Hn1 & Hc1 & Hk).
    rewrite IH by (by rewrite Hn1). rewrite Hk, Hc1.
    rewrite count_cons.
    destruct (is_stop a), (cleanup p); simpl; lia.
Qed.

(** ** The generator's first frame *)

Lemma frame_loop_trace (params : gmap string (list float))
    (changed : list string) (inbus : list (list float)) (n frame : nat)
    (p : Processor) (output : list (list float)) :
  exists evs,
    trace (frame_loop params changed inbus n frame p output).1.2
    = trace p ++ evs.
Proof.
  generalize (frame_loop_run params changed inbus n frame p output).
  generalize (frame_loop params changed inbus n frame p output).
  intros res Hrun.
  induction Hrun as [frame p output
                    |n frame p output c p' output' Hfr
                    |n frame p output p1 output1 res Hfr Hrun IH]; simpl.
  - exists []. by rewrite app_nil_r.
  - inversion Hfr; subst; eauto.
  - destruct IH as [evs' Ht'].
    inversion Hfr as [| |r p2 evs inp Ht Hq Hda Hd' Ha]; subst.
    eexists. rewrite Ht', Ht. by rewrite <- !app_assoc.
Qed.

Lemma frame_body_first_generator (impl : FrameArgs -> Iterator)
    (params : gmap string (list float)) (changed : list string)
    (inbus : list (list float)) (frame : nat) (p : Processor)
    (output : list (list float)) :
  implementation = TypeG impl -> next p = First -> isDone p = false ->
  let a := refresh params changed inbus frame (args p) in
  exists p1,
    frame_body params changed inbus frame p output
    = (None, p1, shape (Some (Num 0%float)) frame output) /\
    trace p1 = trace p ++ [EvCreate a; EvFrame frame a (Plain (Num 0%float))] /\
    next p1 = Bound (it_next (impl a)) /\
    target p1 = Some (it_state (impl a)) /\
    cleanup p1 = it_return (impl a) /\
    isDone p1 = false /\ args p1 = a.
Proof.
  intros Hi Hn Hd a.
  unfold Worklet.frame_body, Worklet.call_next, Worklet.first.
  simpl. rewrite Hn, Hi. simpl. rewrite Hd.
  eexists. split; [reflexivity|]. simpl.
  split_and!; try done. by rewrite <- app_assoc.
Qed.

Lemma frame_body_bound (m : Method) (o : Obj)
    (params : gmap string (list float)) (changed : list string)
    (inbus : list (list float)) (frame : nat) (p : Processor)
    (output : list (list float)) fl p' output' :
  next p = Bound m -> target p = Some o ->
  frame_body params changed inbus frame p output = (fl, p', output') ->
  let a := refresh params changed inbus frame (args p) in
  exists post,
    trace p' = trace p ++ EvCall a :: EvFrame frame a (m o a).2.1 :: post.
Proof.
  intros Hn Ht H a.
  unfold Worklet.frame_body, Worklet.call_next, Worklet.invoke in H.
  simpl in H. rewrite Hn, Ht in H. fold a in H.
  destruct (m o a) as [o' [r inp]]. simpl in *.
  destruct r as [value|value done]; simpl in H;
    match type of H with
    | (if ?b then _ else _) = _ => destruct b
    end; inversion H; subst; simpl; eexists;
    rewrite <- ?app_assoc; simpl; reflexivity.
Qed.

(** C3: with a generator implementation, the first frame ever processed
    calls the generator function and resumes nothing, and writes zero to
    every output channel; the resume operation is invoked first at frame 1,
    on the generator as it was created.  The hypotheses say that the block
    call gets to process a frame: the processor is not done, the copy of the
    parameters does not throw (the mapping has no own key "hasOwnProperty")
    and the first output channel has a frame. *)
Theorem generator_first_frame_zero (impl : FrameArgs -> Iterator)
    (p : Processor) sr inputs outputs params output channel0 :
  implementation = TypeG impl ->
  next p = First -> isDone p = false ->
  params !! "hasOwnProperty"%string = None ->
  outputs !! 0 = Some output -> output !! 0 = Some channel0 ->
  0 < length channel0 ->
  exists a0 rest output',
    block_events p sr inputs outputs params
    = EvCreate a0 :: EvFrame 0 a0 (Plain (Num 0%float)) :: rest /\
    (1 < length channel0 ->
     exists a1 rest',
       rest = EvCall a1
              :: EvFrame 1 a1 (it_next (impl a0) (it_state (impl a0)) a1).2.1
              :: rest') /\
    (process p sr inputs outputs params).2 !! 0 = Some output' /\
    forall c x, sample output c 0 = Some x ->
                sample output' c 0 = Some 0%float.
Proof.
  intros Hi Hn Hd Hown Ho Hc Hlen.
  destruct (process_block p sr inputs outputs params Hd)
    as (ps & changed & Hinit & Hcases).
  destruct Hcases as [(p1 & _ & _ & _ & _ & _ & _ & [Hbs|Hbs])
                     |(output1 & channel1 & p2 & res & Ho1 & Hc1 & _ & _ & Ht2
                       & Hd2 & Hn2 & _ & _ & _ & Hres & Hp)].
  { rewrite (block_size_lookup _ _ _ Ho Hc) in Hbs. lia. }
  { rewrite Hown in Hbs. by destruct Hbs. }
  rewrite Ho in Ho1. inversion Ho1; subst output1.
  rewrite Hc in Hc1. inversion Hc1; subst channel1.
  set (inbus := default [] (inputs !! 0)) in *.
  destruct (length channel0) as [|n] eqn:Hn0; [lia|].
  rewrite Hn in Hn2.
  destruct (frame_body_first_generator impl params changed inbus 0 p2 output
              Hi Hn2 Hd2) as (p1 & Hb & Ht1 & Hn1 & Htg1 & _ & Hd1 & Ha1).
  set (a0 := refresh params changed inbus 0 (args p2)) in *.
  simpl in Hres. rewrite Hb in Hres.
  set (output1 := shape (Some (Num 0%float)) 0 output) in *.
  destruct (loop_run_inv _ _ _ _ _ _ _ _
              (frame_loop_run params changed inbus n 1 p1 output1) Hd1)
    as (evs & Ht & _ & HR & HU & _).
  rewrite <- Hres in Ht, HU.
  assert (Hev : block_events p sr inputs outputs params
                = [EvCreate a0; EvFrame 0 a0 (Plain (Num 0%float))] ++ evs).
  { apply block_events_app. rewrite Hp. simpl.
    by rewrite Ht, Ht1, Ht2, <- app_assoc. }
  exists a0, evs, res.2. split_and!.
  - exact Hev.
  - intros Hlt. destruct n as [|n']; [lia|].
    simpl in Hres.
    destruct (frame_body params changed inbus 1 p1 output1)
      as [[fl p1'] output1'] eqn:Hb1.
    destruct (frame_body_bound _ _ _ _ _ _ _ _ _ _ _ Hn1 Htg1 Hb1)
      as [post Hpost].
    rewrite Ha1 in Hpost.
    exists (refresh params changed inbus 1 a0).
    assert (Hext : exists more, trace res.1.2 = trace p1' ++ more).
    { destruct fl as [c|].
      - exists []. rewrite Hres. simpl. by rewrite app_nil_r.
      - rewrite Hres. apply frame_loop_trace. }
    destruct Hext as [more Hmore].
    exists (post ++ more).
    rewrite Hmore, Hpost in Ht. rewrite <- app_assoc in Ht.
    apply app_inv_head in Ht. by rewrite <- Ht.
  - rewrite Hp. simpl. apply list_lookup_insert_eq. by eapply lookup_lt_Some.
  - intros c x Hx. rewrite HU.
    + unfold output1.
      rewrite (shape_sample_frame _ _ _ _ _ Hx). reflexivity.
    + intros a r Hin. destruct (HR _ _ _ Hin). lia.
Qed.

(** * Further properties of the block call *)

(** A block call whose output bus has a first channel is the main loop run
    on the processor with the parameters and the environment refreshed. *)
Lemma process_entry (p : Processor) sr inputs outputs params output channel0 :
  isDone p = false -> params !! "hasOwnProperty"%string = None ->
  outputs !! 0 = Some output -> output !! 0 = Some channel0 ->
  process p sr inputs outputs params
  = (let ic := init_loop params (parameters (args p)) in
     let p2 := set_args
                 (set_env {| outputChannelCount := Some (length output);
                             sampleRate := sr |}
                    (set_parameters ic.1 (args p))) p in
     let res := frame_loop params ic.2 (default [] (inputs !! 0))
                  (length channel0) 0 p2 output in
     (res.1.1, res.1.2, <[0 := res.2]> outputs)).
Proof.
  intros Hd Hown Ho Hc. unfold Worklet.process.
  rewrite Hd, (init_parameters_returns _ _ Hown), Ho.
  destruct (init_loop params (parameters (args p))) as [ps changed].
  simpl. rewrite Hc.
  by destruct (Worklet.frame_loop _ _ _ _ _ _ _ _ _) as [[c p'] output'].
Qed.

(** A block call that does not enter the main loop throws, and leaves the
    trace, the flags and the output buffers as they were. *)
Lemma process_skipped (p : Processor) sr inputs outputs params :
  (isDone p = true \/ is_Some (params !! "hasOwnProperty"%string)
   \/ outputs !! 0 = None
   \/ exists output, outputs !! 0 = Some output /\ output !! 0 = None) ->
  exists e p1,
    process p sr inputs outputs params = (Throw e, p1, outputs) /\
    trace p1 = trace p /\ next p1 = next p /\ isDone p1 = isDone p.
Proof.
  intros H. unfold Worklet.process.
  destruct (isDone p) eqn:Hd; [by eexists _, _|].
  destruct (params !! "hasOwnProperty"%string) as [own|] eqn:Hown.
  { rewrite (init_parameters_throws _ _ _ Hown). simpl. by eexists _, _. }
  rewrite (init_parameters_returns _ _ Hown).
  destruct (init_loop params (parameters (args p))) as [ps changed].
  destruct H as [H|[[own H]|[H|(output & Ho & Hc)]]]; [done|done| |].
  - rewrite H. by eexists _, _.
  - rewrite Ho. simpl. rewrite Hc. by eexists _, _.
Qed.

(** The events of a block call that does not enter the main loop. *)
Lemma block_events_none (p : Processor) sr inputs outputs params :
  (isDone p = true \/ is_Some (params !! "hasOwnProperty"%string)
   \/ outputs !! 0 = None
   \/ exists output, outputs !! 0 = Some output /\ output !! 0 = None) ->
  block_events p sr inputs outputs params = [].
Proof.
  intros H. apply block_events_app. rewrite app_nil_r.
  destruct (process_skipped p sr inputs outputs params H)
    as (e & p1 & -> & Ht & _). done.
Qed.

(** Taking a block call apart by what stops it before the main loop. *)
Lemma process_shape (p : Processor) (outputs : list (list (list float)))
    (params : gmap string (list float)) :
  (isDone p = true \/ is_Some (params !! "hasOwnProperty"%string)
   \/ outputs !! 0 = None
   \/ exists output, outputs !! 0 = Some output /\ output !! 0 = None)
  \/ (isDone p = false /\ params !! "hasOwnProperty"%string = None /\
      exists output channel0,
        outputs !! 0 = Some output /\ output !! 0 = Some channel0).
Proof.
  destruct (isDone p); [by left; left|].
  destruct (params !! "hasOwnProperty"%string) as [own|] eqn:Hown.
  { left. right. left. by eexists. }
  destruct (outputs !! 0) as [output|] eqn:Ho; [|by left; right; right; left].
  destruct (output !! 0) as [channel0|] eqn:Hc.
  - right. split_and!; try done. by exists output, channel0.
  - left. right. right. right. by exists output.
Qed.

(** X1: every frame of a block is called with the environment of that
    block: the channel count of the output bus handed to the call and the
    sample rate current at the call, whatever the construction-time values
    were. *)
Theorem env_refreshed_every_block (p : Processor) sr inputs outputs params
    f a r :
  EvFrame f a r ∈ block_events p sr inputs outputs params ->
  exists output,
    outputs !! 0 = Some output /\
    env a = {| outputChannelCount := Some (length output); sampleRate := sr |}.
Proof.
  intros Hin.
  destruct (process_shape p outputs params)
    as [Hnone|(Hd & Hown & output & channel0 & Ho & Hc)].
  { rewrite block_events_none in Hin by done. inversion Hin. }
  exists output. split; [done|].
  pose proof (process_entry p sr inputs outputs params _ _ Hd Hown Ho Hc) as Hp.
  cbv zeta in Hp.
  set (ic := init_loop params (parameters (args p))) in *.
  set (E := {| outputChannelCount := Some (length output); sampleRate := sr |})
    in *.
  set (p2 := set_args (set_env E (set_parameters ic.1 (args p))) p) in *.
  destruct (loop_run_observed
              (fun a => env a = E) (fun _ a => env a = E)
              params ic.2 (default [] (inputs !! 0)))
    with (n := length channel0) (frame := 0) (p := p2) (output := output)
         (res := frame_loop params ic.2 (default [] (inputs !! 0))
                   (length channel0) 0 p2 output)
    as (evs & Ht & Hev); try done.
  - apply frame_loop_run.
  - rewrite (block_events_app _ _ _ _ _ evs) in Hin.
    + by destruct (Hev _ _ _ Hin).
    + rewrite Hp. simpl. by rewrite Ht.
Qed.

(** What a run of the main loop that ends normally returns, and which
    frames it has processed. *)
Lemma loop_run_returns (params : gmap string (list float))
    (changed : list string) (inbus : list (list float)) (n frame : nat)
    (p : Processor) (output : list (list float)) res :
  loop_run params changed inbus n frame p output res ->
  isDone p = false ->
  forall c, res.1.1 = Return c ->
    c = negb processOnly && negb (isDone res.1.2) /\
    (isDone res.1.2 = false ->
     exists evs,
       trace res.1.2 = trace p ++ evs /\
       forall f, frame <= f < frame + n -> exists a r, EvFrame f a r ∈ evs).
Proof.
  induction 1 as [frame p output
                 |n frame p output c0 p' output' Hfr
                 |n frame p output p1 output1 res Hfr Hrun IH];
    intros Hd c Hc; simpl in *.
  - inversion Hc; subst. rewrite Hd. split; [by destruct processOnly|].
    intros _. exists []. rewrite app_nil_r. split; [done|]. intros f Hf. lia.
  - inversion Hc; subst c0.
    inversion Hfr as [|r p2 evs inp Ht Hq Hda Hd' Ha|]; subst.
    rewrite Hd'. split; [by destruct processOnly|done].
  - inversion Hfr as [| |r p2 evs inp Ht Hq Hda Hd' Ha]; subst.
    destruct (IH Hd' c Hc) as [Hret Hall]. split; [done|].
    intros Hfin. destruct (Hall Hfin) as (evs' & Ht' & Hev').
    eexists. split; [rewrite Ht', Ht, <- !app_assoc; reflexivity|].
    intros f Hf. destruct (decide (f = frame)) as [->|Hne].
    + eexists _, _. apply elem_of_app. right. apply elem_of_app. left.
      by apply list_elem_of_singleton.
    + destruct (Hev' f) as (a & r' & Hin); [lia|].
      exists a, r'. apply elem_of_app. right. apply elem_of_app. by right.
Qed.

(** A block call that does not enter the main loop does not return. *)
Lemma process_none_throws (p : Processor) sr inputs outputs params c :
  (isDone p = true \/ is_Some (params !! "hasOwnProperty"%string)
   \/ outputs !! 0 = None
   \/ exists output, outputs !! 0 = Some output /\ output !! 0 = None) ->
  (process p sr inputs outputs params).1.1 = Return c -> False.
Proof.
  intros Hnone.
  destruct (process_skipped p sr inputs outputs params Hnone)
    as (e & p1 & -> & _). done.
Qed.

(** X2: a block call that returns (rather than throws) returns [false] when
    it leaves [isDone] set, and otherwise the negation of the [processOnly]
    option: [true] keeps the node alive, and with [processOnly] the call
    returns [false] whether or not an input is connected. *)
Theorem block_return_value (p : Processor) sr inputs outputs params c :
  (process p sr inputs outputs params).1.1 = Return c ->
  c = negb processOnly
      && negb (isDone (process p sr inputs outputs params).1.2).
Proof.
  intros Hc.
  destruct (process_shape p outputs params)
    as [Hnone|(Hd & Hown & output & channel0 & Ho & Hc0)].
  { by destruct (process_none_throws p sr inputs outputs params c). }
  rewrite (process_entry p sr inputs outputs params _ _ Hd Hown Ho Hc0) in *.
  cbv zeta in *. simpl in *.
  eapply loop_run_returns; [apply frame_loop_run|done|done].
Qed.

(** X3: a block call that returns without [isDone] set has called
    [this.next] for every frame of the block. *)
Theorem all_frames_processed (p : Processor) sr inputs outputs params c f :
  (process p sr inputs outputs params).1.1 = Return c ->
  isDone (process p sr inputs outputs params).1.2 = false ->
  f < block_size outputs ->
  exists a r, EvFrame f a r ∈ block_events p sr inputs outputs params.
Proof.
  intros Hc Hfin Hf.
  destruct (process_shape p outputs params)
    as [Hnone|(Hd & Hown & output & channel0 & Ho & Hc0)].
  { by destruct (process_none_throws p sr inputs outputs params c). }
  rewrite (block_size_lookup _ _ _ Ho Hc0) in Hf.
  pose proof (process_entry p sr inputs outputs params _ _ Hd Hown Ho Hc0) as Hp.
  cbv zeta in Hp. rewrite Hp in Hc, Hfin. simpl in Hc, Hfin.
  set (ic := init_loop params (parameters (args p))) in *.
  set (p2 := set_args _ p) in *.
  destruct (loop_run_returns _ _ _ _ _ _ _ _
              (frame_loop_run params ic.2 (default [] (inputs !! 0))
                 (length channel0) 0 p2 output) Hd c Hc) as [_ Hall].
  destruct (Hall Hfin) as (evs & Ht & Hev).
  rewrite (block_events_app _ _ _ _ _ evs).
  - apply Hev. lia.
  - rewrite Hp. simpl. by rewrite Ht.
Qed.

(** ** Calls, frames and the making of the implementation *)

Lemma call_next_counts (p : Processor) c p1 :
  call_next p = (c, p1) ->
  exists evs,
    trace p1 = trace p ++ evs /\
    count is_frame evs = 0 /\
    count is_call evs <= (match c with Return _ => 1 | Throw _ => 0 end) /\
    count is_create evs <= 1 /\
    (next p <> First -> count is_create evs = 0) /\
    (forall r, c = Return r -> next p1 <> First).
Proof.
  unfold Worklet.call_next. intros H.
  assert (Hinv : forall (q : Processor) pre,
             trace q = trace p ++ pre ->
             count is_frame pre = 0 -> count is_call pre = 0 ->
             next q <> First ->
             invoke q (args p) = (c, p1) ->
             exists evs,
               trace p1 = trace p ++ evs /\
               count is_frame evs = 0 /\
               count is_call evs
               <= (match c with Return _ => 1 | Throw _ => 0 end) /\
               count is_create evs = count is_create pre /\
               (forall r, c = Return r -> next p1 <> First)).
  { intros q pre Ht Hf Hcl Hn Hi.
    destruct (invoke_spec _ _ _ _ Hi) as (_ & _ & _ & _ & _ & _ & Hn1 & _).
    destruct (invoke_calls _ _ _ _ Hi) as [(r & -> & Ht1)|(e & -> & Ht1)].
    - exists (pre ++ [EvCall (args p)]).
      rewrite Ht1, Ht, <- app_assoc, !count_app, Hf, Hcl.
      split_and!; try done.
      intros _ _. by rewrite Hn1.
    - exists pre. rewrite Ht1, Ht, Hf, Hcl. split_and!; try done; lia. }
  destruct (next p) eqn:Hn.
  - unfold Worklet.first in H. destruct implementation as [impl|impl|impl].
    + inversion H; subst. exists [EvCreate (args p)].
      split_and!; try done; unfold count; simpl; lia.
    + destruct (Hinv (set_next (PureFn impl) p) [])
        as (evs & Ht & Hf & Hcl & Hcr & Hn1);
        [by rewrite app_nil_r|done|done|by simpl|exact H|].
      exists evs. rewrite Hcr. split_and!; try done; unfold count; simpl; lia.
    + destruct (inst_next (impl None)) as [m|].
      * destruct (Hinv (set_target (Some (inst_state (impl None)))
                          (set_next (Bound m) (emit (EvNew None) p)))
                    [EvNew None])
          as (evs & Ht & Hf & Hcl & Hcr & Hn1);
          [done|done|done|by simpl|exact H|].
        exists evs. rewrite Hcr. split_and!; try done; unfold count; simpl; lia.
      * inversion H; subst. exists [EvNew None].
        split_and!; try done; unfold count; simpl; lia.
  - destruct (Hinv p []) as (evs & Ht & Hf & Hcl & Hcr & Hn1);
      [by rewrite app_nil_r|done|done|by rewrite Hn|exact H|].
    exists evs. rewrite Hcr. split_and!; try done; unfold count; simpl; lia.
  - destruct (Hinv p []) as (evs & Ht & Hf & Hcl & Hcr & Hn1);
      [by rewrite app_nil_r|done|done|by rewrite Hn|exact H|].
    exists evs. rewrite Hcr. split_and!; try done; unfold count; simpl; lia.
Qed.

Lemma frame_body_counts (params : gmap string (list float))
    (changed : list string) (inbus : list (list float)) (frame : nat)
    (p : Processor) (output : list (list float)) fl p' output' :
  frame_body params changed inbus frame p output = (fl, p', output') ->
  exists evs,
    trace p' = trace p ++ evs /\
    count is_call evs <= count is_frame evs /\
    count is_frame evs <= 1 /\
    count is_create evs <= 1 /\
    (next p <> First -> count is_create evs = 0) /\
    (fl = None -> next p' <> First).
Proof.
  unfold Worklet.frame_body. intros H.
  set (a0 := refresh params changed inbus frame (args p)) in *.
  destruct (call_next (set_args a0 p)) as [[r|e] p1] eqn:Hc;
    destruct (call_next_counts _ _ _ Hc)
      as (evs & Ht & Hf & Hcl & Hcr & Hcr0 & Hn1); simpl in Ht, Hcr0.
  - specialize (Hn1 r eq_refl).
    assert (Hshape : exists post,
               trace p' = trace p1 ++ [EvFrame frame a0 r] ++ post /\
               next p' = next p1 /\
               count is_frame post = 0 /\ count is_call post = 0 /\
               count is_create post = 0).
    { destruct r as [value|value done]; simpl in H.
      - destruct (isDone p1); inversion H; subst; simpl.
        + exists [EvPost "done"]. by rewrite <- app_assoc.
        + by exists [].
      - destruct done; inversion H; subst; simpl.
        + exists [EvPost "done"]. by rewrite <- app_assoc.
        + by exists []. }
    destruct Hshape as (post & Htp & Hnp & Hpf & Hpc & Hpr).
    exists (evs ++ [EvFrame frame a0 r] ++ post).
    rewrite Htp, Ht, <- !app_assoc, !count_app, Hf, Hpf, Hpc, Hpr, Hnp.
    assert (Hone : count is_frame [EvFrame frame a0 r] = 1
                   /\ count is_call [EvFrame frame a0 r] = 0
                   /\ count is_create [EvFrame frame a0 r] = 0) by done.
    destruct Hone as (-> & -> & ->).
    split_and!; try done; try lia.
    intros Hn. rewrite (Hcr0 Hn). lia.
  - inversion H; subst. exists evs. rewrite Hf.
    split_and!; try done; lia.
Qed.

Lemma frame_loop_counts (params : gmap string (list float))
    (changed : list string) (inbus : list (list float)) (n frame : nat)
    (p : Processor) (output : list (list float)) :
  exists evs,
    trace (frame_loop params changed inbus n frame p output).1.2
    = trace p ++ evs /\
    count is_call evs <= count is_frame evs /\
    count is_frame evs <= n /\
    count is_create evs <= 1 /\
    (next p <> First -> count is_create evs = 0).
Proof.
  revert frame p output. induction n as [|n IH]; intros frame p output; simpl.
  - exists []. rewrite app_nil_r. split_and!; try done. unfold count; simpl; lia.
  - destruct (frame_body params changed inbus frame p output)
      as [[[c|] p'] output'] eqn:Hb;
      destruct (frame_body_counts _ _ _ _ _ _ _ _ _ Hb)
        as (evs & Ht & Hcl & Hf & Hcr & Hcr0 & Hn1).
    + exists evs. split_and!; try done. lia.
    + destruct (IH (S frame) p' output') as (evs' & Ht' & Hcl' & Hf' & _ & Hcr0').
      specialize (Hcr0' (Hn1 eq_refl)).
      exists (evs ++ evs'). rewrite Ht', Ht, <- app_assoc, !count_app, Hcr0'.
      split_and!; try done; try lia.
      intros Hn. rewrite (Hcr0 Hn). lia.
Qed.

Lemma block_counts (p : Processor) sr inputs outputs params :
  count is_call (block_events p sr inputs outputs params)
  <= count is_frame (block_events p sr inputs outputs params) /\
  count is_frame (block_events p sr inputs outputs params)
  <= block_size outputs /\
  count is_create (block_events p sr inputs outputs params) <= 1 /\
  (next p <> First ->
   count is_create (block_events p sr inputs outputs params) = 0).
Proof.
  destruct (process_shape p outputs params)
    as [Hnone|(Hd & Hown & output & channel0 & Ho & Hc)].
  { rewrite block_events_none by done. split_and!; try done; unfold count; simpl; lia. }
  pose proof (process_entry p sr inputs outputs params _ _ Hd Hown Ho Hc) as Hp.
  cbv zeta in Hp.
  set (ic := init_loop params (parameters (args p))) in *.
  set (p2 := set_args _ p) in *.
  destruct (frame_loop_counts params ic.2 (default [] (inputs !! 0))
              (length channel0) 0 p2 output)
    as (evs & Ht & Hcl & Hf & Hcr & Hcr0).
  rewrite (block_events_app _ _ _ _ _ evs); [|rewrite Hp; simpl; by rewrite Ht].
  rewrite (block_size_lookup _ _ _ Ho Hc). by split_and!.
Qed.


Lemma act_creates_nothing (p : Processor) (a : Action) :
  next p <> First ->
  count is_create (trace (act p a)) = count is_create (trace p).
Proof.
  intros Hn. destruct a as [sr inputs outputs params|data]; simpl.
  - destruct (block_counts p sr inputs outputs params) as (_ & _ & _ & Hcr).
    specialize (Hcr Hn). unfold Worklet.block_events in Hcr.
    destruct (isDone p) eqn:Hd.
    { by rewrite process_done. }
    destruct (process_counts p sr inputs outputs params Hd) as (evs & Ht & _).
    rewrite Ht, drop_app_length in Hcr. rewrite Ht, count_app, Hcr. lia.
  - unfold Worklet.onmessage.
    destruct (String.eqb (toLowerCase data) "stop"); [|done].
    destruct (stop_spec p) as (_ & _ & _ & _ & Ht).
    rewrite Ht, count_app. destruct (cleanup p); unfold count; simpl; lia.
Qed.

(** X5: the implementation is resolved once.  From the moment [this.next]
    is no longer [first], no block call and no control message changes
    [next] or [cleanup], and neither the generator function nor the class
    constructor is called again. *)
Theorem resolved_once (p : Processor) (acts : list Action) :
  next p <> First ->
  next (run acts p) = next p /\
  cleanup (run acts p) = cleanup p /\
  count is_create (trace (run acts p)) = count is_create (trace p).
Proof.
  revert p. induction acts as [|a acts IH]; intros p Hn; [done|]. simpl.
  destruct (act_resolved p a Hn) as (Hn1 & Hc1 & _).
  destruct (IH (act p a)) as (Hn2 & Hc2 & Hk2); [by rewrite Hn1|].
  rewrite Hn2, Hc2, Hk2, Hn1, Hc1. split_and!; try done.
  by apply act_creates_nothing.
Qed.

(** ** A pure function *)

Lemma frame_body_pure (impl : FrameArgs -> Answer)
    (params : gmap string (list float)) (changed : list string)
    (inbus : list (list float)) (frame : nat) (p : Processor)
    (output : list (list float)) fl p' output' :
  implementation = TypeP impl ->
  next p = First \/ next p = PureFn impl ->
  frame_body params changed inbus frame p output = (fl, p', output') ->
  next p' = PureFn impl /\
  exists evs,
    trace p' = trace p ++ evs /\
    forall f a r, EvFrame f a r ∈ evs -> r = (impl a).1.
Proof.
  intros Hi Hn H.
  unfold Worklet.frame_body, Worklet.call_next, Worklet.first,
    Worklet.invoke in H.
  set (a0 := refresh params changed inbus frame (args p)) in *.
  assert (Hcall :
    (let '(r, inp) := impl a0 in
     let p1 := emit (EvFrame frame a0 r)
                 (set_args (set_input inp a0)
                    (emit (EvCall a0) (set_next (PureFn impl) (set_args a0 p)))) in
     let '(value, p2) :=
       match r with
       | Yield value done => (value, set_isDone done p1)
       | Plain value => (Some value, p1)
       end in
     if isDone p2
     then (Some (Return false), emit (EvPost "done") p2, output)
     else (None, p2, shape value frame output)) = (fl, p', output')).
  { rewrite <- H. simpl. destruct Hn as [Hn|Hn]; rewrite Hn, ?Hi; simpl;
      destruct (impl a0) as [r inp]; simpl; try done.
    all: replace (set_next (PureFn impl) (set_args a0 p)) with (set_args a0 p);
      try done.
    all: unfold set_next, set_args; simpl; by rewrite Hn. }
  clear H. destruct (impl a0) as [r inp] eqn:Himpl.
  assert (Hev : forall post f a r',
             (forall m, EvFrame f a r' ∈ post -> post = [EvPost m] -> False) ->
             EvFrame f a r' ∈ [EvCall a0; EvFrame frame a0 r] ++ post ->
             post = [] \/ post = [EvPost "done"] ->
             r' = (impl a).1).
  { intros post f a r' _ Hin Hpost.
    apply elem_of_app in Hin as [Hin|Hin].
    - apply elem_of_cons in Hin as [Hin|Hin]; [inversion Hin|].
      apply list_elem_of_singleton in Hin. inversion Hin; subst.
      by rewrite Himpl.
    - destruct Hpost as [->| ->]; [inversion Hin|].
      apply list_elem_of_singleton in Hin. inversion Hin. }
  destruct r as [value|value done]; simpl in Hcall.
  - destruct (isDone p); inversion Hcall; subst; simpl; (split; [done|]).
    + exists ([EvCall a0; EvFrame frame a0 (Plain value)] ++ [EvPost "done"]).
      split; [by rewrite <- !app_assoc|]. intros f a r' Hin.
      eapply Hev; [|exact Hin|by right]. intros m Hm Heq.
      inversion Heq; subst. apply list_elem_of_singleton in Hm. inversion Hm.
    + exists ([EvCall a0; EvFrame frame a0 (Plain value)] ++ []).
      split; [by rewrite <- !app_assoc|]. intros f a r' Hin.
      eapply Hev; [|exact Hin|by left]. intros m Hm. inversion Hm.
  - destruct done; inversion Hcall; subst; simpl; (split; [done|]).
    + exists ([EvCall a0; EvFrame frame a0 (Yield value true)] ++ [EvPost "done"]).
      split; [by rewrite <- !app_assoc|]. intros f a r' Hin.
      eapply Hev; [|exact Hin|by right]. intros m Hm Heq.
      inversion Heq; subst. apply list_elem_of_singleton in Hm. inversion Hm.
    + exists ([EvCall a0; EvFrame frame a0 (Yield value false)] ++ []).
      split; [by rewrite <- !app_assoc|]. intros f a r' Hin.
      eapply Hev; [|exact Hin|by left]. intros m Hm. inversion Hm.
Qed.

Lemma frame_loop_pure (impl : FrameArgs -> Answer)
    (params : gmap string (list float)) (changed : list string)
    (inbus : list (list float)) (n frame : nat) (p : Processor)
    (output : list (list float)) :
  implementation = TypeP impl ->
  next p = First \/ next p = PureFn impl ->
  (next (frame_loop params changed inbus n frame p output).1.2 = First
   \/ next (frame_loop params changed inbus n frame p output).1.2
      = PureFn impl) /\
  exists evs,
    trace (frame_loop params changed inbus n frame p output).1.2
    = trace p ++ evs /\
    forall f a r, EvFrame f a r ∈ evs -> r = (impl a).1.
Proof.
  intros Hi. revert frame p output.
  induction n as [|n IH]; intros frame p output Hn; simpl.
  - split; [done|]. exists []. rewrite app_nil_r. split; [done|].
    intros f a r Hin. inversion Hin.
  - destruct (frame_body params changed inbus frame p output)
      as [[[c|] p'] output'] eqn:Hb;
      destruct (frame_body_pure impl _ _ _ _ _ _ _ _ _ Hi Hn Hb)
        as (Hn' & evs & Ht & Hev).
    + split; [by right|]. by exists evs.
    + destruct (IH (S frame) p' output') as (Hn2 & evs' & Ht' & Hev');
        [by right|].
      split; [done|]. exists (evs ++ evs').
      split; [by rewrite Ht', Ht, <- app_assoc|].
      intros f a r Hin. apply elem_of_app in Hin as [Hin|Hin]; eauto.
Qed.

Lemma process_pure (impl : FrameArgs -> Answer) (p : Processor)
    sr inputs outputs params :
  implementation = TypeP impl ->
  next p = First \/ next p = PureFn impl ->
  (next (process p sr inputs outputs params).1.2 = First
   \/ next (process p sr inputs outputs params).1.2 = PureFn impl) /\
  forall f a r, EvFrame f a r ∈ block_events p sr inputs outputs params ->
                r = (impl a).1.
Proof.
  intros Hi Hn.
  destruct (process_shape p outputs params)
    as [Hnone|(Hd & Hown & output & channel0 & Ho & Hc)].
  { rewrite block_events_none by done. split; [|intros f a r Hin; inversion Hin].
    destruct (process_skipped p sr inputs outputs params Hnone)
      as (e & p1 & -> & _ & Hn1 & _). simpl. by rewrite Hn1. }
  pose proof (process_entry p sr inputs outputs params _ _ Hd Hown Ho Hc) as Hp.
  cbv zeta in Hp.
  set (ic := init_loop params (parameters (args p))) in *.
  set (p2 := set_args _ p) in *.
  destruct (frame_loop_pure impl params ic.2 (default [] (inputs !! 0))
              (length channel0) 0 p2 output Hi Hn) as (Hn' & evs & Ht & Hev).
  rewrite (block_events_app _ _ _ _ _ evs); [|rewrite Hp; simpl; by rewrite Ht].
  rewrite Hp. simpl. done.
Qed.

(** X6: with a pure function there is no delay and no state: over the whole
    life of a processor, the result of every frame is the function applied
    to the arguments of that frame. *)
Theorem pure_frames_are_the_function (impl : FrameArgs -> Answer)
    (occ : option (list nat)) (sr0 : float) (acts : list Action)
    sr inputs outputs params f a r :
  implementation = TypeP impl ->
  EvFrame f a r
    ∈ block_events (run acts (construct occ sr0)) sr inputs outputs params ->
  r = (impl a).1.
Proof.
  intros Hi.
  assert (Hinv : forall acts (p : Processor),
             next p = First \/ next p = PureFn impl ->
             next (run acts p) = First \/ next (run acts p) = PureFn impl).
  { clear acts. induction acts as [|x acts IH]; intros p Hn; [done|].
    simpl. apply IH. destruct x as [sr' inputs' outputs' params'|data]; simpl.
    - by apply (process_pure impl).
    - unfold Worklet.onmessage.
      destruct (String.eqb (toLowerCase data) "stop"); [|done].
      destruct (stop_spec p) as (_ & -> & _). done. }
  apply (process_pure impl); [done|]. apply Hinv. by left.
Qed.

(** ** A class without [next], and a missing output *)

(** X7: when the instance of a class has no [next], the first frame of a
    block throws the [Error] of [first] after the constructor has run:
    nothing is written to the output, [isDone] stays unset and [this.next]
    stays [first], so that a further block call would construct again.  The
    block call is one that gets to its first frame: the copy of the
    parameters does not throw (no own key "hasOwnProperty") and the first
    output channel has a frame. *)
Theorem class_without_next_throws (impl : option FrameArgs -> Instance)
    (p : Processor) sr inputs outputs params output channel0 :
  implementation = TypeC impl -> inst_next (impl None) = None ->
  next p = First -> isDone p = false ->
  params !! "hasOwnProperty"%string = None ->
  outputs !! 0 = Some output -> output !! 0 = Some channel0 ->
  0 < length channel0 ->
  exists p',
    process p sr inputs outputs params
    = (Throw (Error "Argument must be a pure function, a generator function, or a class that defines next()."),
       p', outputs) /\
    trace p' = trace p ++ [EvNew None] /\
    next p' = First /\ isDone p' = false.
Proof.
  intros Hi Hnone Hn Hd Hown Ho Hc Hlen.
  rewrite (process_entry p sr inputs outputs params _ _ Hd Hown Ho Hc).
  cbv zeta. destruct (length channel0) as [|n]; [lia|]. simpl.
  unfold Worklet.frame_body, Worklet.call_next, Worklet.first. simpl.
  rewrite Hn, Hi, Hnone. simpl.
  eexists. split.
  { by rewrite (list_insert_id outputs 0 output). }
  simpl. by split_and!.
Qed.

(** X8: a block call without an output bus, or with an output bus that has
    no channel, throws a [TypeError] before any frame: nothing is called or
    posted and [isDone] stays unset, but the parameters have already been
    copied: for a mapping without the own key "hasOwnProperty", every key
    other than "__proto__" holds the first value of its automation array. *)
Theorem missing_output_throws (p : Processor) sr inputs outputs params
    name arr :
  isDone p = false ->
  params !! "hasOwnProperty"%string = None ->
  outputs !! 0 = None \/ outputs !! 0 = Some [] ->
  params !! name = Some arr -> name <> "__proto__"%string ->
  exists p',
    process p sr inputs outputs params = (Throw TypeError, p', outputs) /\
    trace p' = trace p /\ isDone p' = false /\ next p' = next p /\
    parameters (args p') !! name = Some (arr !! 0).
Proof.
  intros Hd Hown Hout Hname Hproto. unfold Worklet.process.
  rewrite Hd, (init_parameters_returns _ _ Hown).
  destruct (init_loop params (parameters (args p))) as [ps changed] eqn:Hi.
  destruct (init_parameters_spec _ _ _ _ Hi) as [Hps _].
  destruct Hout as [->| ->]; simpl; eexists; (split; [reflexivity|]);
    simpl; split_and!; try done; by apply Hps.
Qed.

(** ** The control message *)

Lemma lower_ascii_inv (c l : ascii) :
  lower_ascii c = l -> c = l \/ c = upper_ascii l.
Proof.
  intros <-.
  destruct c as [[] [] [] [] [] [] [] []]; vm_compute; auto.
Qed.

Lemma toLowerCase_casings (data w : string) :
  toLowerCase data = w -> data ∈ casings w.
Proof.
  revert w. induction data as [|c data IH]; intros w H; simpl in H; subst w.
  - simpl. by apply list_elem_of_singleton.
  - simpl. apply list_elem_of_In, in_flat_map.
    exists data. split; [apply list_elem_of_In; by apply IH|].
    destruct (lower_ascii_inv c _ eq_refl) as [Hc|Hc]; rewrite <- Hc; simpl; auto.
Qed.

(** X9: the listener calls [stop] exactly for the sixteen ways of writing
    "stop" in upper and lower case; any other message leaves the processor
    as it is. *)
Theorem stop_exactly_on_casings (data : string) (p : Processor) :
  onmessage data p = if decide (data ∈ casings "stop") then stop p else p.
Proof.
  destruct (decide (data ∈ casings "stop")) as [Hin|Hout].
  - by apply onmessage_stop.
  - unfold Worklet.onmessage.
    destruct (String.eqb (toLowerCase data) "stop") eqn:He; [|done].
    apply String.eqb_eq in He. destruct Hout. by apply toLowerCase_casings.
Qed.

(** X10: a processor stopped before its first block never makes or calls
    the implementation: whatever block calls and messages follow, nothing
    is created, called, posted or cleaned up. *)
Theorem stopped_first_never_runs (occ : option (list nat)) (sr : float)
    (acts : list Action) :
  trace (run acts (stop (construct occ sr))) = [] /\
  next (run acts (stop (construct occ sr))) = First /\
  isDone (run acts (stop (construct occ sr))) = true.
Proof.
  assert (Hinv : forall acts (p : Processor),
             trace p = [] -> next p = First -> isDone p = true ->
             cleanup p = None ->
             trace (run acts p) = [] /\ next (run acts p) = First
             /\ isDone (run acts p) = true).
  { clear acts. induction acts as [|a acts IH]; intros p Ht Hn Hd Hc; [done|].
    simpl. destruct a as [sr' inputs outputs params|data]; simpl.
    - rewrite process_done by done. simpl. by apply IH.
    - unfold Worklet.onmessage.
      destruct (String.eqb (toLowerCase data) "stop"); [|by apply IH].
      destruct (stop_spec p) as (Hd1 & Hn1 & Hc1 & _ & Ht1).
      rewrite Hc, app_nil_r in Ht1.
      apply IH; congruence. }
  by apply Hinv.
Qed.

(** ** The shape of the output *)

Lemma loop_run_lengths (params : gmap string (list float))
    (changed : list string) (inbus : list (list float)) (n frame : nat)
    (p : Processor) (output : list (list float)) res :
  loop_run params changed inbus n frame p output res ->
  forall c, length <$> res.2 !! c = length <$> output !! c.
Proof.
  induction 1 as [frame p output
                 |n frame p output c0 p' output' Hfr
                 |n frame p output p1 output1 res Hfr Hrun IH];
    intros c; simpl.
  - done.
  - by inversion Hfr; subst.
  - inversion Hfr as [| |r p2 evs inp Ht Hq Hda Hd' Ha]; subst.
    rewrite IH, shape_lookup.
    destruct (output !! c) as [ch|]; simpl; [|done].
    by rewrite length_insert.
Qed.

(** X11: a block call keeps the shape of the output buffers: the number of
    buses, of channels of a bus and of samples of a channel never changes,
    and only the first bus is ever written. *)
Theorem output_shape_kept (p : Processor) sr inputs outputs params i bus :
  outputs !! i = Some bus ->
  exists bus',
    (process p sr inputs outputs params).2 !! i = Some bus' /\
    (forall c, length <$> bus' !! c = length <$> bus !! c) /\
    length bus' = length bus /\
    (i = 0 \/ bus' = bus).
Proof.
  intros Hb.
  assert (Hsame : (process p sr inputs outputs params).2 = outputs ->
            exists bus',
              (process p sr inputs outputs params).2 !! i = Some bus' /\
              (forall c, length <$> bus' !! c = length <$> bus !! c) /\
              length bus' = length bus /\ (i = 0 \/ bus' = bus)).
  { intros ->. exists bus. split_and!; try done. by right. }
  destruct (process_shape p outputs params)
    as [Hnone|(Hd & Hown & output & channel0 & Ho & Hc)].
  { apply Hsame.
    by destruct (process_skipped p sr inputs outputs params Hnone)
      as (e & p1 & -> & _). }
  rewrite (process_entry p sr inputs outputs params _ _ Hd Hown Ho Hc).
  cbv zeta. simpl.
  set (ic := init_loop params (parameters (args p))) in *.
  set (p2 := set_args _ p) in *.
  pose proof (loop_run_lengths _ _ _ _ _ _ _ _
                (frame_loop_run params ic.2 (default [] (inputs !! 0))
                   (length channel0) 0 p2 output)) as Hlen.
  destruct (decide (i = 0)) as [->|Hne].
  - rewrite Ho in Hb. inversion Hb; subst bus.
    eexists. split; [apply list_lookup_insert_eq; by eapply lookup_lt_Some|].
    split_and!; [done| |by left].
    apply Nat.le_antisymm; apply Nat.nlt_ge; intros Hlt.
    + destruct (lookup_lt_is_Some_2 _ _ Hlt) as [ch Hch].
      specialize (Hlen (length output)). rewrite Hch in Hlen.
      rewrite (lookup_ge_None_2 output (length output)) in Hlen by lia. done.
    + destruct (lookup_lt_is_Some_2 _ _ Hlt) as [ch Hch].
      specialize (Hlen (length (frame_loop params ic.2 (default [] (inputs !! 0))
                                  (length channel0) 0 p2 output).2)).
      rewrite Hch in Hlen. rewrite lookup_ge_None_2 in Hlen by lia. done.
  - exists bus. rewrite list_lookup_insert_ne by done.
    split_and!; try done. by right.
Qed.

(** ** Parameters outside the two documented shapes *)

Lemma init_parameters_absent (params : gmap string (list float))
    (ps0 ps : gmap string (option float)) (changed : list string)
    (k : string) :
  init_loop params ps0 = (ps, changed) ->
  params !! k = None -> ps !! k = ps0 !! k.
Proof.
  intros Hi Hk. eapply init_step_keeps; [|exact Hi].
  intros Hin. apply list_elem_of_fmap in Hin as ([k' arr] & -> & Hin).
  apply elem_of_map_to_list in Hin. simpl in Hk. congruence.
Qed.

(** X12: a parameter that the automation mapping of a block does not name
    is neither removed nor reset: every frame of the block sees the value
    the parameter had before the call, if it had one. *)
Theorem absent_parameter_persists (p : Processor) sr inputs outputs params
    name f a r :
  params !! name = None ->
  EvFrame f a r ∈ block_events p sr inputs outputs params ->
  parameters a !! name = parameters (args p) !! name.
Proof.
  intros Hname Hin.
  destruct (process_shape p outputs params)
    as [Hnone|(Hd & Hown & output & channel0 & Ho & Hc)].
  { rewrite block_events_none in Hin by done. inversion Hin. }
  pose proof (process_entry p sr inputs outputs params _ _ Hd Hown Ho Hc) as Hp.
  cbv zeta in Hp.
  destruct (init_loop params (parameters (args p))) as [ps changed] eqn:Hi.
  simpl in Hp.
  destruct (init_parameters_spec _ _ _ _ Hi) as [_ Hch].
  pose proof (init_parameters_absent _ _ _ _ name Hi Hname) as Hkeep.
  assert (Hnot : name ∉ changed).
  { rewrite Hch. intros (arr & Hn' & _). congruence. }
  set (p2 := set_args _ p) in *.
  destruct (loop_run_observed
              (fun a => parameters a !! name = parameters (args p) !! name)
              (fun _ a => parameters a !! name = parameters (args p) !! name)
              params changed (default [] (inputs !! 0)))
    with (n := length channel0) (frame := 0) (p := p2) (output := output)
         (res := frame_loop params changed (default [] (inputs !! 0))
                   (length channel0) 0 p2 output)
    as (evs & Ht & Hev); try done.
  - intros frame a' Ha'. simpl. by rewrite update_changed_keeps.
  - apply frame_loop_run.
  - rewrite (block_events_app _ _ _ _ _ evs) in Hin.
    + by destruct (Hev _ _ _ Hin).
    + rewrite Hp. simpl. by rewrite Ht.
Qed.

(** X13: automation arrays are not validated.  For an array that is not of
    length 1 and is shorter than the block, every frame at or past its end
    sees the parameter as [undefined]; an empty array does so at every
    frame.  (A parameter named "__proto__" is never stored at all.) *)
Theorem short_automation_is_undefined (p : Processor) sr inputs outputs params
    name arr f a r :
  params !! name = Some arr -> name <> "__proto__"%string ->
  length arr <> 1 -> length arr <= f ->
  EvFrame f a r ∈ block_events p sr inputs outputs params ->
  parameters a !! name = Some None.
Proof.
  intros Hname Hproto Hone Hlen Hin.
  destruct (block_frames_observed _ _ _ _ _ _ _ _ _ _ Hname Hproto Hin)
    as [_ Hobs].
  rewrite Hobs. destruct (decide (length arr = 1)); [done|].
  by rewrite lookup_ge_None_2.
Qed.

(** X18: a mapping with an own key "hasOwnProperty" stops the block call at
    the first turn of the copy loop: the call of [parameters.hasOwnProperty]
    finds the automation array in place of the method and throws a
    [TypeError].  No parameter has been stored, nothing is called, posted or
    written, and the processor is exactly as it was. *)
Theorem shadowed_hasOwnProperty_throws (p : Processor) sr inputs outputs params
    own :
  isDone p = false ->
  params !! "hasOwnProperty"%string = Some own ->
  process p sr inputs outputs params = (Throw TypeError, p, outputs).
Proof.
  intros Hd Hown. unfold Worklet.process.
  rewrite Hd, (init_parameters_throws _ _ _ Hown). simpl.
  by destruct p as [n d c [i ps e] t tr].
Qed.

(** X19: a block call never stores anything under the key "__proto__" of
    [args.parameters], whatever the mapping holds under that key: at every
    frame the entry is what it was before the call (none, over the life of
    a processor). *)
Theorem proto_parameter_never_stored (p : Processor) sr inputs outputs params
    f a r :
  EvFrame f a r ∈ block_events p sr inputs outputs params ->
  parameters a !! "__proto__"%string
  = parameters (args p) !! "__proto__"%string.
Proof.
  intros Hin.
  destruct (process_shape p outputs params)
    as [Hnone|(Hd & Hown & output & channel0 & Ho & Hc)].
  { rewrite block_events_none in Hin by done. inversion Hin. }
  pose proof (process_entry p sr inputs outputs params _ _ Hd Hown Ho Hc) as Hp.
  cbv zeta in Hp.
  destruct (init_loop params (parameters (args p))) as [ps changed] eqn:Hi.
  simpl in Hp.
  pose proof (init_loop_proto _ _ _ _ _ Hi) as Hkeep.
  set (p2 := set_args _ p) in *.
  destruct (loop_run_observed
              (fun a => parameters a !! "__proto__"%string
                        = parameters (args p) !! "__proto__"%string)
              (fun _ a => parameters a !! "__proto__"%string
                          = parameters (args p) !! "__proto__"%string)
              params changed (default [] (inputs !! 0)))
    with (n := length channel0) (frame := 0) (p := p2) (output := output)
         (res := frame_loop params changed (default [] (inputs !! 0))
                   (length channel0) 0 p2 output)
    as (evs & Ht & Hev); try done.
  - intros frame a' Ha'. simpl. by rewrite update_changed_proto.
  - apply frame_loop_run.
  - rewrite (block_events_app _ _ _ _ _ evs) in Hin.
    + by destruct (Hev _ _ _ Hin).
    + rewrite Hp. simpl. by rewrite Ht.
Qed.

End Properties.

(** * The exported functions *)

Section Exports.

Context {Obj Desc Handler : Type}.

(** X15: whichever of [fromGenerator], [fromClass] and [fromPure] makes the
    class, its [parameterDescriptors] getter returns the descriptors given
    in the options, and the empty list when there are none: the object the
    three functions build never carries descriptors of its own. *)
Theorem exports_use_option_descriptors
    (options : option (@SimpleAudioWorkletOptions Desc Handler))
    (g : FrameArgs -> @Iterator Obj) (c : option FrameArgs -> @Instance Obj)
    (f : FrameArgs -> Answer) :
  sc_parameterDescriptors (fromGenerator g options).1
  = default [] (options ≫= opt_parameterDescriptors) /\
  sc_parameterDescriptors (fromClass c options).1
  = default [] (options ≫= opt_parameterDescriptors) /\
  sc_parameterDescriptors (fromPure (Obj := Obj) f options).1
  = default [] (options ≫= opt_parameterDescriptors).
Proof. by destruct options as [[po pd om ra]|]. Qed.

(** X16: with [processOnly] left out of the options, a block call of a
    processor of the class returns [true] whenever it returns without
    [isDone] set, and [false] when it leaves [isDone] set. *)
Theorem default_options_keep_alive
    (implementation : @ImplementationObject Obj Desc)
    (options : option (@SimpleAudioWorkletOptions Desc Handler))
    (p : @Processor Obj) sr inputs outputs params c :
  options ≫= opt_processOnly = None ->
  (sc_process (simpleAudioWorklet implementation options).1
     p sr inputs outputs params).1.1 = Return c ->
  c = negb (isDone (sc_process (simpleAudioWorklet implementation options).1
                      p sr inputs outputs params).1.2).
Proof.
  intros Hopt Hc.
  assert (Hpo : sc_processOnly (simpleAudioWorklet implementation options).1
                = false).
  { destruct options as [[po pd om ra]|]; simpl in *; [by subst po|done]. }
  unfold sc_process in *. rewrite Hpo in *.
  set (impl := sc_implementation (simpleAudioWorklet implementation options).1)
    in *.
  destruct (process_shape p outputs params)
    as [Hnone|(Hd & Hown & output & channel0 & Ho & Hc0)].
  { by destruct (process_none_throws impl false p sr inputs outputs params c). }
  rewrite (process_entry impl false p sr inputs outputs params _ _ Hd Hown Ho Hc0)
    in *.
  cbv zeta in *. simpl in *.
  set (ic := init_loop params (parameters (args p))) in *.
  set (p2 := set_args _ p) in *.
  destruct (loop_run_returns false _ _ _ _ _ _ _ _
              (frame_loop_run impl false params ic.2 (default [] (inputs !! 0))
                 (length channel0) 0 p2 output) Hd c Hc) as [Hret _].
  exact Hret.
Qed.

End Exports.

(** * The properties at concrete blocks *)

(** C1 fails on the code: the mapping has an own key "__proto__" whose array
    has one entry for each of the two frames, and at frame 1 the arguments
    hold no parameter of that name. *)
Lemma proto_parameter_dropped :
  Demo.proto !! "__proto__"%string = Some [3; 4]%float /\
  length [3; 4]%float = block_size Demo.outputs2 /\
  exists a r,
    block_events Demo.echo false (construct None Demo.rate) Demo.rate
      Demo.inputs1 Demo.outputs2 Demo.proto !! 3
    = Some (EvFrame 1 a r) /\
    parameters a !! "__proto__"%string = None.
Proof.
  split; [vm_compute; reflexivity|]. split; [reflexivity|].
  eexists _, _. split; vm_compute; reflexivity.
Qed.

(** X17 at frame 1 of a block with a two-entry array for [gain]. *)
Lemma automation_observed_witness :
  (length [1; 2]%float = block_size Demo.outputs2 ->
   exists x, [1; 2]%float !! 1 = Some x
             /\ parameters Demo.args1 !! "gain"%string = Some (Some x)) /\
  (length [1; 2]%float = 1 ->
   exists x, [1; 2]%float = [x]
             /\ parameters Demo.args1 !! "gain"%string = Some (Some x)).
Proof.
  apply (automation_observed_per_frame Demo.echo false
           (construct None Demo.rate) Demo.rate Demo.inputs1 Demo.outputs2
           Demo.gain "gain" [1; 2]%float 1 Demo.args1
           (Plain (Arr [Some 0.25%float]))).
  - vm_compute. reflexivity.
  - intros H. discriminate H.
  - apply (list_elem_of_lookup_2 _ 3). vm_compute. reflexivity.
Defined.

(** C2 for three returned channels and a bus of two, at channel 1. *)
Lemma frame_value_shaped_witness :
  exists output',
    (process Demo.three false (construct None Demo.rate) Demo.rate
       Demo.inputs1 Demo.outputs2 ∅).2 !! 0 = Some output' /\
    (2 <= 3 -> sample output' 1 0 = Some (store_f32 (Some 0.25%float))) /\
    (3 < 2 -> sample output' 1 0 = Some (store_f32 (Some 0.5%float))).
Proof.
  apply (frame_value_shaped Demo.three false (construct None Demo.rate)
           Demo.rate Demo.inputs1 Demo.outputs2 ∅
           [[9; 9]; [9; 9]]%float 0
           {| input := [Some 0.5%float]; parameters := ∅;
              env := {| outputChannelCount := Some 2;
                        sampleRate := Demo.rate |} |}
           (Plain (Arr [Some 0.5; Some 0.25; Some 0.125]%float)) 1 9%float).
  - reflexivity.
  - apply (list_elem_of_lookup_2 _ 1). vm_compute. reflexivity.
  - intros v Hv. discriminate Hv.
  - reflexivity.
Defined.

(** C10 for the generator [counter], which finishes at frame 3 of five. *)
Lemma done_frame_leaves_output_witness :
  (process Demo.counter false (construct None Demo.rate) Demo.rate
     [] Demo.outputs5 ∅).1.1 = Return false /\
  (exists evs0,
      block_events Demo.counter false (construct None Demo.rate) Demo.rate
        [] Demo.outputs5 ∅
      = evs0 ++ [EvFrame 3 Demo.args_idle (Yield None true); EvPost "done"]
      /\ forall f' a' r', EvFrame f' a' r' ∈ evs0 -> f' < 3) /\
  exists output',
    (process Demo.counter false (construct None Demo.rate) Demo.rate
       [] Demo.outputs5 ∅).2 !! 0 = Some output' /\
    forall c f, 3 <= f ->
                sample output' c f = sample [[9; 9; 9; 9; 9]]%float c f.
Proof.
  apply (done_frame_leaves_output Demo.counter false
           (construct None Demo.rate) Demo.rate [] Demo.outputs5 ∅
           [[9; 9; 9; 9; 9]]%float 3 Demo.args_idle None).
  - reflexivity.
  - apply (list_elem_of_lookup_2 _ 7). vm_compute. reflexivity.
Defined.

(** C3 for the generator [counter] on its first block. *)
Lemma generator_first_frame_zero_witness :
  exists a0 rest output',
    block_events Demo.counter false (construct None Demo.rate) Demo.rate
      [] Demo.outputs5 ∅
    = EvCreate a0 :: EvFrame 0 a0 (Plain (Num 0%float)) :: rest /\
    (1 < 5 ->
     exists a1 rest',
       rest = EvCall a1
              :: EvFrame 1 a1
                   (it_next (Demo.counter_fn a0)
                      (it_state (Demo.counter_fn a0)) a1).2.1
              :: rest') /\
    (process Demo.counter false (construct None Demo.rate) Demo.rate
       [] Demo.outputs5 ∅).2 !! 0 = Some output' /\
    forall c x, sample [[9; 9; 9; 9; 9]]%float c 0 = Some x ->
                sample output' c 0 = Some 0%float.
Proof.
  apply (generator_first_frame_zero Demo.counter false Demo.counter_fn
           (construct None Demo.rate) Demo.rate [] Demo.outputs5 ∅
           [[9; 9; 9; 9; 9]]%float [9; 9; 9; 9; 9]%float).
  - reflexivity.
  - reflexivity.
  - reflexivity.
  - reflexivity.
  - reflexivity.
  - reflexivity.
  - simpl. lia.
Defined.

(** C7 after the message "StOp". *)
Lemma process_after_done_throws_witness :
  process Demo.echo false (onmessage "StOp" (construct None Demo.rate))
    Demo.rate Demo.inputs1 Demo.outputs2 ∅
  = (Throw (RangeError "Attempted to process after iterator has finished."),
     onmessage "StOp" (construct None Demo.rate), Demo.outputs2).
Proof.
  apply (process_after_done_throws Demo.echo false).
  apply (flag_by_stop Demo.echo false (construct None Demo.rate) "StOp").
  apply (list_elem_of_lookup_2 _ 5). vm_compute. reflexivity.
Defined.


(** C6 as stated fails: after a "stop" the next block call throws and
    nothing is posted, so the lifetime has no "done" at all. *)
Lemma stop_path_posts_nothing :
  isDone (run Demo.echo false
            [Block Demo.rate Demo.inputs1 Demo.outputs2 ∅; Message "stop"]
            (construct None Demo.rate)) = true /\
  (process Demo.echo false
     (run Demo.echo false
        [Block Demo.rate Demo.inputs1 Demo.outputs2 ∅; Message "stop"]
        (construct None Demo.rate))
     Demo.rate Demo.inputs1 Demo.outputs2 ∅).1.1
  = Throw (RangeError "Attempted to process after iterator has finished.") /\
  count (is_post "done")
    (trace (run Demo.echo false
              [Block Demo.rate Demo.inputs1 Demo.outputs2 ∅; Message "stop";
               Block Demo.rate Demo.inputs1 Demo.outputs2 ∅]
              (construct None Demo.rate))) = 0.
Proof. vm_compute. by repeat split. Qed.

(** C9, as the code has it, for the generator [counter] and two "stop"
    messages. *)
Lemma cleanup_once_per_stop_witness :
  (isDone (stop Demo.resumed) = true /\
   trace (stop Demo.resumed)
   = trace Demo.resumed
     ++ match cleanup Demo.resumed with
        | Some _ => [EvCleanup]
        | None => []
        end) /\
  count is_cleanup
    (trace (run Demo.counter false [Message "stop"; Message "Stop"]
              Demo.resumed))
  = count is_cleanup (trace Demo.resumed)
    + match cleanup Demo.resumed with
      | Some _ => count is_stop [Message "stop"; Message "Stop"]
      | None => 0
      end.
Proof.
  apply (cleanup_once_per_stop Demo.counter false).
  intros H. vm_compute in H. discriminate H.
Defined.

(** C9 as stated fails: two "stop" messages run the cleanup twice. *)
Lemma two_stops_two_cleanups :
  count is_cleanup
    (trace (run Demo.counter false
              [Block Demo.rate [] Demo.outputs2 ∅; Message "stop";
               Message "STOP"]
              (construct None Demo.rate))) = 2.
Proof. vm_compute. reflexivity. Qed.

(** C4 fails on the code: a block with one input channel, then a block whose
    input bus has no channel.  At frame 0 of the second block [args.input]
    still holds the last sample of the first block. *)
Lemma stale_input_after_disconnect :
  length (default [] (Demo.inputs0 !! 0)) = 0 /\
  exists a r,
    block_events Demo.echo false
      (process Demo.echo false (construct None Demo.rate) Demo.rate
         Demo.inputs1 Demo.outputs2 ∅).1.2
      Demo.rate Demo.inputs0 Demo.outputs2 ∅ !! 1
    = Some (EvFrame 0 a r) /\
    input a = [Some 0.25%float].
Proof.
  split; [reflexivity|]. eexists _, _. split; vm_compute; reflexivity.
Qed.

(** C8 fails on the code: the constructor of the class is called without
    an argument, so the instance of the first block holds none. *)
Lemma constructor_given_nothing :
  head (trace (process Demo.add_noise false (construct None Demo.rate)
                 Demo.rate Demo.inputs1 Demo.outputs2 ∅).1.2)
  = Some (EvNew None) /\
  target (process Demo.add_noise false (construct None Demo.rate)
            Demo.rate Demo.inputs1 Demo.outputs2 ∅).1.2
  = Some None.
Proof. vm_compute. by split. Qed.

(** * The further properties at concrete blocks *)

(** X1 at frame 1 of the block [inputs1], [outputs2], [gain]. *)
Lemma env_refreshed_witness :
  exists output,
    Demo.outputs2 !! 0 = Some output /\
    env Demo.args1
    = {| outputChannelCount := Some (length output);
         sampleRate := Demo.rate |}.
Proof.
  apply (env_refreshed_every_block Demo.echo false
           (construct None Demo.rate) Demo.rate Demo.inputs1 Demo.outputs2
           Demo.gain 1 Demo.args1 (Plain (Arr [Some 0.25%float]))).
  apply (list_elem_of_lookup_2 _ 3). vm_compute. reflexivity.
Defined.

(** X2 for a block of [echo], which returns [true]. *)
Lemma block_return_value_witness :
  true = negb false
         && negb (isDone (process Demo.echo false (construct None Demo.rate)
                            Demo.rate Demo.inputs1 Demo.outputs2 ∅).1.2).
Proof.
  apply (block_return_value Demo.echo false (construct None Demo.rate)
           Demo.rate Demo.inputs1 Demo.outputs2 ∅ true).
  vm_compute. reflexivity.
Defined.

(** X3 for the same block, at frame 1. *)
Lemma all_frames_processed_witness :
  exists a r,
    EvFrame 1 a r
      ∈ block_events Demo.echo false (construct None Demo.rate)
          Demo.rate Demo.inputs1 Demo.outputs2 ∅.
Proof.
  apply (all_frames_processed Demo.echo false (construct None Demo.rate)
           Demo.rate Demo.inputs1 Demo.outputs2 ∅ true 1).
  - vm_compute. reflexivity.
  - vm_compute. reflexivity.
  - vm_compute. lia.
Defined.

(** X5 for the generator [counter] after its first block. *)
Lemma resolved_once_witness :
  next (run Demo.counter false
          [Block Demo.rate [] Demo.outputs2 ∅; Message "stop"] Demo.resumed)
  = next Demo.resumed /\
  cleanup (run Demo.counter false
             [Block Demo.rate [] Demo.outputs2 ∅; Message "stop"] Demo.resumed)
  = cleanup Demo.resumed /\
  count is_create
    (trace (run Demo.counter false
              [Block Demo.rate [] Demo.outputs2 ∅; Message "stop"]
              Demo.resumed))
  = count is_create (trace Demo.resumed).
Proof.
  apply (resolved_once Demo.counter false).
  intros H. vm_compute in H. discriminate H.
Defined.

(** X6 at frame 1 of a first block of [echo]. *)
Lemma pure_frames_witness :
  Plain (Arr [Some 0.25%float])
  = ((fun a => (Plain (Arr (input a)), input a)) Demo.args1).1.
Proof.
  apply (pure_frames_are_the_function Demo.echo false
           (fun a => (Plain (Arr (input a)), input a)) None Demo.rate []
           Demo.rate Demo.inputs1 Demo.outputs2 Demo.gain 1 Demo.args1
           (Plain (Arr [Some 0.25%float]))).
  - reflexivity.
  - apply (list_elem_of_lookup_2 _ 3). vm_compute. reflexivity.
Defined.

(** X7 for the class [nextless]. *)
Lemma class_without_next_witness :
  exists p',
    process Demo.nextless false (construct None Demo.rate) Demo.rate
      Demo.inputs1 Demo.outputs2 ∅
    = (Throw (Error "Argument must be a pure function, a generator function, or a class that defines next()."),
       p', Demo.outputs2) /\
    trace p' = trace (@construct unit None Demo.rate) ++ [EvNew None] /\
    next p' = First /\ isDone p' = false.
Proof.
  apply (class_without_next_throws Demo.nextless false
           (fun _ => {| inst_state := tt; inst_next := None |})
           (construct None Demo.rate) Demo.rate Demo.inputs1 Demo.outputs2 ∅
           [[9; 9]; [9; 9]]%float [9; 9]%float).
  - reflexivity.
  - reflexivity.
  - reflexivity.
  - reflexivity.
  - reflexivity.
  - reflexivity.
  - reflexivity.
  - simpl. lia.
Defined.

(** X8 for a call with no output bus. *)
Lemma missing_output_witness :
  exists p',
    process Demo.echo false (construct None Demo.rate) Demo.rate
      Demo.inputs1 [] Demo.gain
    = (Throw TypeError, p', []) /\
    trace p' = trace (@construct unit None Demo.rate) /\
    isDone p' = false /\ next p' = next (@construct unit None Demo.rate) /\
    parameters (args p') !! "gain"%string = Some ([1; 2]%float !! 0).
Proof.
  apply (missing_output_throws Demo.echo false (construct None Demo.rate)
           Demo.rate Demo.inputs1 [] Demo.gain "gain" [1; 2]%float).
  - reflexivity.
  - vm_compute. reflexivity.
  - left. reflexivity.
  - vm_compute. reflexivity.
  - intros H. discriminate H.
Defined.

(** X11 for the first bus of [outputs2]. *)
Lemma output_shape_kept_witness :
  exists bus',
    (process Demo.echo false (construct None Demo.rate) Demo.rate
       Demo.inputs1 Demo.outputs2 ∅).2 !! 0 = Some bus' /\
    (forall c, length <$> bus' !! c
               = length <$> [[9; 9]; [9; 9]]%float !! c) /\
    length bus' = length [[9; 9]; [9; 9]]%float /\
    (0 = 0 \/ bus' = [[9; 9]; [9; 9]]%float).
Proof.
  apply (output_shape_kept Demo.echo false (construct None Demo.rate)
           Demo.rate Demo.inputs1 Demo.outputs2 ∅ 0 [[9; 9]; [9; 9]]%float).
  reflexivity.
Defined.

(** X12: [gain] set by one block is still seen in a block that leaves it
    out. *)
Lemma absent_parameter_witness :
  parameters Demo.args0 !! "gain"%string
  = parameters (args Demo.gained) !! "gain"%string.
Proof.
  apply (absent_parameter_persists Demo.echo false Demo.gained Demo.rate
           Demo.inputs1 Demo.outputs2 ∅ "gain" 0 Demo.args0
           (Plain (Arr [Some 0.5%float]))).
  - reflexivity.
  - apply (list_elem_of_lookup_2 _ 1). vm_compute. reflexivity.
Defined.

(** X13 for an empty automation array, at frame 0. *)
Lemma short_automation_witness :
  parameters
    {| input := [Some 0.5%float];
       parameters := {[ "z"%string := None ]};
       env := {| outputChannelCount := Some 2; sampleRate := Demo.rate |} |}
    !! "z"%string = Some None.
Proof.
  apply (short_automation_is_undefined Demo.echo false
           (construct None Demo.rate) Demo.rate Demo.inputs1 Demo.outputs2
           Demo.empty_automation "z" [] 0
           {| input := [Some 0.5%float];
              parameters := {[ "z"%string := None ]};
              env := {| outputChannelCount := Some 2;
                        sampleRate := Demo.rate |} |}
           (Plain (Arr [Some 0.5%float]))).
  - vm_compute. reflexivity.
  - intros H. discriminate H.
  - simpl. lia.
  - simpl. lia.
  - apply (list_elem_of_lookup_2 _ 1). vm_compute. reflexivity.
Defined.

(** X14 at frame 1 of the block [inputs1], [outputs2], [gain]. *)
Lemma input_refreshed_witness :
  input Demo.args1
  = (fun ch : list float => ch !! 1) <$> default [] (Demo.inputs1 !! 0).
Proof.
  apply (input_refreshed_when_connected Demo.echo false
           (construct None Demo.rate) Demo.rate Demo.inputs1 Demo.outputs2
           Demo.gain 1 Demo.args1 (Plain (Arr [Some 0.25%float]))).
  - intros H. vm_compute in H. discriminate H.
  - apply (list_elem_of_lookup_2 _ 3). vm_compute. reflexivity.
Defined.

(** X16 for [fromPure] with no options. *)
Lemma default_options_keep_alive_witness :
  true
  = negb (isDone
            (sc_process
               (simpleAudioWorklet (Desc := unit) (Handler := unit)
                  {| tagged := Demo.echo; impl_parameterDescriptors := None |}
                  None).1
               (construct None Demo.rate) Demo.rate Demo.inputs1
               Demo.outputs2 ∅).1.2).
Proof.
  apply (default_options_keep_alive
           {| tagged := Demo.echo; impl_parameterDescriptors := None |}
           None (construct None Demo.rate) Demo.rate Demo.inputs1
           Demo.outputs2 ∅ true).
  - reflexivity.
  - vm_compute. reflexivity.
Defined.

(** X18 for a mapping that has the key "hasOwnProperty" beside [gain]. *)
Lemma shadowed_hasOwnProperty_witness :
  process Demo.echo false (construct None Demo.rate) Demo.rate Demo.inputs1
    Demo.outputs2 Demo.shadowing
  = (Throw TypeError, construct None Demo.rate, Demo.outputs2).
Proof.
  apply (shadowed_hasOwnProperty_throws Demo.echo false
           (construct None Demo.rate) Demo.rate Demo.inputs1 Demo.outputs2
           Demo.shadowing [0]%float).
  - reflexivity.
  - vm_compute. reflexivity.
Defined.

(** X19 at frame 1 of a block whose mapping has the key "__proto__". *)
Lemma proto_parameter_witness :
  parameters
    {| input := [Some 0.25%float]; parameters := ∅;
       env := {| outputChannelCount := Some 2; sampleRate := Demo.rate |} |}
    !! "__proto__"%string
  = parameters (args (@construct unit None Demo.rate)) !! "__proto__"%string.
Proof.
  apply (proto_parameter_never_stored Demo.echo false
           (construct None Demo.rate) Demo.rate Demo.inputs1 Demo.outputs2
           Demo.proto 1
           {| input := [Some 0.25%float]; parameters := ∅;
              env := {| outputChannelCount := Some 2;
                        sampleRate := Demo.rate |} |}
           (Plain (Arr [Some 0.25%float]))).
  apply (list_elem_of_lookup_2 _ 3). vm_compute. reflexivity.
Defined.
